(** * seedlib URL: parsing, validation, mutation and serialization

    A shallow embedding of [src/url_impl.hpp] (class [URLImpl], the two
    regular expressions, the default-port table and the member functions of
    [URL]) together with the properties of the library's specification.

    Conventions.
    - A [std::string] is a list of 8-bit characters ([text]).
    - [uint16_t] and [int] values are integers in [Z]; the narrowing
      conversion to [uint16_t] is written out ([to_uint16]).
    - A C++ exception is a value of [exn]; a function that may throw returns
      [exn + A]; a mutator returns its outcome and the object it leaves.
    - [std::regex] (ECMAScript grammar) is embedded as a syntax tree and a
      backtracking matcher that explores alternatives in the priority order
      of the ECMAScript semantics and reports the first complete match. *)

From Stdlib Require Import List Ascii String ZArith NArith Bool Lia PeanoNat.
Import ListNotations.

Local Open Scope char_scope.
Local Open Scope list_scope.

(** ** Text *)

Definition text := list ascii.

(** A string literal of the source. *)
Definition str (s : string) : text := list_ascii_of_string s.

Definition ascii_code (c : ascii) : Z := Z.of_N (N_of_ascii c).

Definition char_in (c : ascii) (cs : text) : bool :=
  existsb (Ascii.eqb c) cs.

(** [operator==] on [std::string]. *)
Fixpoint text_eqb (a b : text) : bool :=
  match a, b with
  | [], [] => true
  | x :: a', y :: b' => Ascii.eqb x y && text_eqb a' b'
  | _, _ => false
  end.

(** [<cctype>] in the "C" locale. *)
Definition isdigit (c : ascii) : bool :=
  (48 <=? ascii_code c)%Z && (ascii_code c <=? 57)%Z.

Definition isupper (c : ascii) : bool :=
  (65 <=? ascii_code c)%Z && (ascii_code c <=? 90)%Z.

Definition islower (c : ascii) : bool :=
  (97 <=? ascii_code c)%Z && (ascii_code c <=? 122)%Z.

Definition isalpha (c : ascii) : bool := isupper c || islower c.

Definition isspace (c : ascii) : bool :=
  (ascii_code c =? 32)%Z || ((9 <=? ascii_code c)%Z && (ascii_code c <=? 13)%Z).

Definition tolower (c : ascii) : ascii :=
  if isupper c then ascii_of_N (N_of_ascii c + 32) else c.

(** [std::transform(s.begin(), s.end(), s.begin(), ::tolower)] *)
Definition lowercase (s : text) : text := map tolower s.

(** ** Regular expressions (ECMAScript grammar of [std::regex]) *)

Module Regex.

(** One-character matchers. *)
Inductive cset : Type :=
| Lit (c : ascii)        (* a literal or escaped character *)
| NoneOf (cs : text)     (* [^...] *)
| Dot                    (* .   any character but a line terminator *)
| Digit.                 (* \d *)

Definition accepts (a : cset) (c : ascii) : bool :=
  match a with
  | Lit c' => Ascii.eqb c c'
  | NoneOf cs => negb (char_in c cs)
  | Dot => negb (char_in c ["010"; "013"])
  | Digit => isdigit c
  end.

(** Quantifiers are only ever applied to one-character matchers in the
    patterns of this library, which keeps the matcher structural. *)
Inductive regex : Type :=
| Bol                                            (* ^ *)
| Eol                                            (* $ *)
| One (a : cset)
| Many (a : cset) (lo : nat) (hi : option nat)   (* greedy a{lo,hi}; a* a+ *)
| Cat (r1 r2 : regex)
| Or (r1 r2 : regex)                             (* r1|r2 *)
| Maybe (r : regex)                              (* greedy (r)? *)
| Cap (i : nat) (r : regex).                     (* capture group number i *)

(** Position in the subject: characters consumed so far, characters left. *)
Definition cursor : Type := nat * text.

(** [std::smatch]: the sub-match of each group, [None] when the group did
    not take part in the match. *)
Definition smatch : Type := nat -> option text.

Definition no_match : smatch := fun _ => None.

Definition set_group (i : nat) (w : text) (m : smatch) : smatch :=
  fun j => if Nat.eqb j i then Some w else m j.

(** Conversion of a sub-match to [std::string]: empty when unmatched. *)
Definition sub (m : smatch) (i : nat) : text :=
  match m i with Some w => w | None => [] end.

Definition below (n : nat) (hi : option nat) : bool :=
  match hi with Some h => Nat.ltb n h | None => true end.

Definition dec_hi (hi : option nat) : option nat :=
  match hi with Some h => Some (Nat.pred h) | None => None end.

Section Matcher.
Context {A : Type}.

(** Greedy repetition of a one-character matcher: take one more character
    whenever allowed, and fall back to stopping here when everything that
    follows fails. *)
Fixpoint many (a : cset) (lo : nat) (hi : option nat) (n : nat) (s : text)
    (k : cursor -> option A) {struct s} : option A :=
  let stop := match lo with O => k (n, s) | S _ => None end in
  match s with
  | c :: s' =>
      if accepts a c && below 0 hi then
        match many a (Nat.pred lo) (dec_hi hi) (S n) s' k with
        | Some x => Some x
        | None => stop
        end
      else stop
  | [] => stop
  end.

(** Backtracking matcher in continuation-passing style: [k] is what has to
    match after [r]; the first alternative whose continuation succeeds
    wins. *)
Fixpoint run (r : regex) (st : cursor) (m : smatch)
    (k : cursor -> smatch -> option A) {struct r} : option A :=
  match r with
  | Bol => match fst st with O => k st m | S _ => None end
  | Eol => match snd st with [] => k st m | _ :: _ => None end
  | One a =>
      match snd st with
      | c :: s' => if accepts a c then k (S (fst st), s') m else None
      | [] => None
      end
  | Many a lo hi => many a lo hi (fst st) (snd st) (fun st' => k st' m)
  | Cat r1 r2 => run r1 st m (fun st' m' => run r2 st' m' k)
  | Or r1 r2 =>
      match run r1 st m k with
      | Some x => Some x
      | None => run r2 st m k
      end
  | Maybe r1 =>
      match run r1 st m k with
      | Some x => Some x
      | None => k st m
      end
  | Cap i r1 =>
      run r1 st m
        (fun st' m' =>
           k st' (set_group i (firstn (fst st' - fst st) (snd st)) m'))
  end.
End Matcher.

(** [std::regex_match]: the whole subject has to be matched. *)
Definition regex_match (s : text) (r : regex) : option smatch :=
  run r (0, s) no_match
    (fun st m => match snd st with [] => Some (set_group 0 s m) | _ => None end).

Definition star (a : cset) : regex := Many a 0 None.
Definition plus (a : cset) : regex := Many a 1 None.
Definition lit (c : ascii) : regex := One (Lit c).

End Regex.

Import Regex.

Declare Scope regex_scope.
Delimit Scope regex_scope with re.
Bind Scope regex_scope with regex.
Infix ";;" := Cat (at level 61, right associativity) : regex_scope.

(** The pattern texts as they are written in the source. *)
Definition url_regex_source : string :=
  "^(([^:/?#]+):)?(//([^/?#]*))?([^?#]*)(\?([^#]*))?(#(.*))?".

Definition authority_regex_source : string :=
  "^(?:([^@:]*)(?::([^@]*))?@)?(\[[^]\]+\]|[^:]+)(?::(\d{1,5}))?$".

(** [url_regex_source] as a syntax tree. *)
Definition url_regex : regex :=
  (Bol ;;
   Maybe (Cap 1 (Cap 2 (plus (NoneOf (str ":/?#"))) ;; lit ":")) ;;
   Maybe (Cap 3 (lit "/" ;; lit "/" ;; Cap 4 (star (NoneOf (str "/?#"))))) ;;
   Cap 5 (star (NoneOf (str "?#"))) ;;
   Maybe (Cap 6 (lit "?" ;; Cap 7 (star (NoneOf (str "#"))))) ;;
   Maybe (Cap 8 (lit "#" ;; Cap 9 (star Dot))))%re.

(** [authority_regex_source] as a syntax tree.

    In the ECMAScript grammar a bracket expression closes at the first
    closing bracket,
    so the bracket expression after the escaped opening bracket is
    the empty negated class, which accepts every character; the
    first alternative of the host is therefore: an opening bracket, any one
    character, one or more closing brackets, a closing bracket. *)
Definition authority_regex : regex :=
  (Bol ;;
   Maybe (Cap 1 (star (NoneOf (str "@:"))) ;;
          Maybe (lit ":" ;; Cap 2 (star (NoneOf (str "@")))) ;;
          lit "@") ;;
   Cap 3 (Or (lit "[" ;; One (NoneOf []) ;; plus (Lit "]") ;; lit "]")
             (plus (NoneOf (str ":")))) ;;
   Maybe (lit ":" ;; Cap 4 (Many Digit 1 (Some 5))) ;;
   Eol)%re.

(** ** Exceptions *)

(** The exception classes that occur: the two of [url.hpp] and the two that
    [std::stoi] throws.  All four derive from [std::exception]. *)
Inductive exn : Type :=
| URLParseError (what : string)
| URLValidationError (what : string)
| std_invalid_argument (what : string)
| std_out_of_range (what : string).

(** The failure names of the specification and what the code throws for
    them. *)
Definition Malformed : exn := URLParseError "Invalid URL format".
Definition InvalidAuthority : exn := URLParseError "Invalid authority component".
Definition InvalidPort : exn := URLParseError "Invalid port number".
Definition InvalidScheme : exn := URLValidationError "Invalid scheme format".
Definition ZeroPort : exn := URLValidationError "Port cannot be 0".

(** ** Numbers *)

Local Open Scope Z_scope.

(** Conversion of an [int] to [uint16_t]. *)
Definition to_uint16 (v : Z) : Z := v mod 65536.

Definition INT_MAX : Z := 2147483647.
Definition INT_MIN : Z := -2147483648.

Definition digit_value (c : ascii) : Z := ascii_code c - 48.

Fixpoint skip_space (s : text) : text :=
  match s with
  | c :: s' => if isspace c then skip_space s' else s
  | [] => []
  end.

(** Value of the leading run of decimal digits, most significant first. *)
Fixpoint leading_digits (s : text) (acc : Z) : Z :=
  match s with
  | c :: s' => if isdigit c then leading_digits s' (10 * acc + digit_value c) else acc
  | [] => acc
  end.

(** [std::stoi(s)]: optional white space, optional sign, decimal digits;
    characters after the digits are ignored. *)
Definition stoi (s : text) : exn + Z :=
  let s1 := skip_space s in
  let '(negative, s2) :=
    match s1 with
    | "-"%char :: r => (true, r)
    | "+"%char :: r => (false, r)
    | _ => (false, s1)
    end in
  match s2 with
  | c :: _ =>
      if isdigit c then
        let v := leading_digits s2 0 in
        let v := if negative then - v else v in
        if (INT_MIN <=? v) && (v <=? INT_MAX) then inr v
        else inl (std_out_of_range "stoi")
      else inl (std_invalid_argument "stoi")
  | [] => inl (std_invalid_argument "stoi")
  end.

(** Decimal digits of a non-negative number, as [operator<<] prints an
    [unsigned short]; five digits are enough below 65536. *)
Fixpoint decimal_digits (fuel : nat) (n : Z) (acc : text) : text :=
  match fuel with
  | O => acc
  | S fuel' =>
      let acc' := ascii_of_N (Z.to_N (48 + n mod 10)) :: acc in
      if n / 10 =? 0 then acc' else decimal_digits fuel' (n / 10) acc'
  end.

Definition to_decimal (n : Z) : text := decimal_digits 5 n [].

(** ** The default-port table *)

(** The keys are distinct, so the order of the entries does not matter. *)
Definition default_ports : list (text * Z) :=
  [ (str "http", 80); (str "https", 443); (str "ws", 80); (str "wss", 443);
    (str "ftp", 21) ].

(** [default_ports.find(key)]; [None] stands for [default_ports.end()]. *)
Definition find_port (key : text) : option Z :=
  match find (fun e => text_eqb (fst e) key) default_ports with
  | Some e => Some (snd e)
  | None => None
  end.

(** ** URLImpl *)

Record URLImpl : Type := mkURLImpl {
  scheme : text;
  host : text;
  port : Z;                                (* uint16_t, 0 when not given *)
  path : text;
  query : text;
  fragment : text;
  query_params : list (text * text);       (* cache, empty until parsed *)
  query_params_parsed : bool
}.

(** The port of the authority, lines 78 to 89 of the constructor. *)
Definition authority_port (scheme port_str : text) : exn + Z :=
  match port_str with
  | _ :: _ =>
      let attempt :=
        match stoi port_str with
        | inl e => inl e
        | inr v =>
            let port := to_uint16 v in
            if port >? 65535 then inl (URLParseError "Port number out of range")
            else inr port
        end in
      match attempt with
      | inl _ => inl (URLParseError "Invalid port number")
      | inr port => inr port
      end
  | [] =>
      match find_port scheme with
      | Some p => inr p
      | None => inr 0
      end
  end.

(** Host and port, lines 68 to 90 of the constructor. *)
Definition parse_authority (scheme authority : text) : exn + text * Z :=
  match authority with
  | _ :: _ =>
      match regex_match authority authority_regex with
      | None => inl (URLParseError "Invalid authority component")
      | Some auth_match =>
          let host := sub auth_match 3 in
          let port_str := sub auth_match 4 in
          match authority_port scheme port_str with
          | inl e => inl e
          | inr port => inr (host, port)
          end
      end
  | [] => inr ([], 0)
  end.

(** [URLImpl::URLImpl(const std::string& url)] *)
Definition URLImpl_new (url : text) : exn + URLImpl :=
  match regex_match url url_regex with
  | None => inl (URLParseError "Invalid URL format")
  | Some m =>
      let scheme := lowercase (sub m 2) in
      let authority := sub m 4 in
      match parse_authority scheme authority with
      | inl e => inl e
      | inr (host, port) =>
          let path :=
            if (0 <? List.length (sub m 5))%nat then sub m 5 else str "/" in
          inr (mkURLImpl scheme host port path (sub m 7) (sub m 9) [] false)
      end
  end.

(** ** Percent decoding *)

Definition isxdigit (c : ascii) : bool :=
  isdigit c
  || ((97 <=? ascii_code c) && (ascii_code c <=? 102))
  || ((65 <=? ascii_code c) && (ascii_code c <=? 70)).

Definition xdigit_value (c : ascii) : Z :=
  if isdigit c then ascii_code c - 48
  else if 97 <=? ascii_code c then ascii_code c - 87
  else ascii_code c - 55.

(** [static_cast<char>(value)] *)
Definition char_of_int (v : Z) : ascii := ascii_of_N (Z.to_N (v mod 256)).

(** [s.substr(pos, n)] for [pos <= s.length()] *)
Definition substr (s : text) (pos n : nat) : text := firstn n (skipn pos s).

Section Decode.

(** The integer that the hexadecimal extraction
    [ss << std::hex << two; ss >> value] leaves in [value] for a string
    [two] of two characters.  For two hexadecimal digits this is their
    value (hypothesis [stream_hex_xdigits] of the theorems below); for
    other strings the outcome depends on the stream's treatment of signs,
    white space and failed extractions and is left open. *)
Variable stream_hex : text -> Z.

(** The loop of [URLImpl::decode_uri_component]: [i] is the loop index,
    [result] the string built so far; every turn advances [i], so
    [encoded.length()] turns are enough. *)
Fixpoint decode_loop (fuel : nat) (encoded : text) (i : nat) (result : text)
    : text :=
  match fuel with
  | O => result
  | S fuel' =>
      if (i <? List.length encoded)%nat then
        let c := nth i encoded zero in
        if Ascii.eqb c "%" && (i + 2 <? List.length encoded)%nat then
          let value := stream_hex (substr encoded (i + 1) 2) in
          decode_loop fuel' encoded (i + 2 + 1) (result ++ [char_of_int value])
        else if Ascii.eqb c "+" then
          decode_loop fuel' encoded (i + 1) (result ++ [" "%char])
        else
          decode_loop fuel' encoded (i + 1) (result ++ [c])
      else result
  end.

Definition decode_uri_component (encoded : text) : text :=
  decode_loop (List.length encoded) encoded 0 [].

End Decode.

(** The extraction restricted to what is certain: two hexadecimal digits. *)
Definition hex_pair (two : text) : Z :=
  match two with
  | [a; b] =>
      if isxdigit a && isxdigit b then 16 * xdigit_value a + xdigit_value b
      else 0
  | _ => 0
  end.

(** ** URL *)

(** [URL] owns one [URLImpl] through [impl_]. *)
Record URL : Type := mkURL { impl_ : URLImpl }.

(** [URL::ValidationResult] *)
Record ValidationResult : Type := mkValidationResult {
  valid : bool;
  reason : string
}.

Module URLOps.

(** [URL::parse]: only [URLParseError] is caught. *)
Definition parse (url : text) : exn + option URL :=
  match URLImpl_new url with
  | inr impl => inr (Some (mkURL impl))
  | inl (URLParseError _) => inr None
  | inl e => inl e
  end.

(** [URL::validate].  The statement [URLImpl impl(std::string(url));] of its
    [try] block is read by C++ as the declaration of a function [impl] with
    one parameter of type [std::string] named [url] (a text that can be a
    declaration is one): no [URLImpl] is constructed, nothing is thrown, the
    handler of [URLParseError] is never entered, and the result is
    [{true, ""}] whatever the input. *)
Definition validate (url : text) : exn + ValidationResult :=
  inr (mkValidationResult true "").

Definition with_scheme (s : text) (u : URL) : URL :=
  let i := impl_ u in
  mkURL (mkURLImpl s (host i) (port i) (path i) (query i) (fragment i)
           (query_params i) (query_params_parsed i)).

Definition with_port (p : Z) (u : URL) : URL :=
  let i := impl_ u in
  mkURL (mkURLImpl (scheme i) (host i) p (path i) (query i) (fragment i)
           (query_params i) (query_params_parsed i)).

(** [URL::set_scheme]: the outcome and the object afterwards. *)
Definition set_scheme (new_scheme : text) (u : URL) : (exn + unit) * URL :=
  let scheme_str := lowercase new_scheme in
  match scheme_str with
  | [] => (inl (URLValidationError "Invalid scheme format"), u)
  | c :: _ =>
      if negb (isalpha c) then
        (inl (URLValidationError "Invalid scheme format"), u)
      else (inr tt, with_scheme scheme_str u)
  end.

(** [URL::set_port]; [new_port] is a [uint16_t]. *)
Definition set_port (new_port : Z) (u : URL) : (exn + unit) * URL :=
  if new_port =? 0 then (inl (URLValidationError "Port cannot be 0"), u)
  else (inr tt, with_port new_port u).

(** [URL::to_string]: [ss] is the stream's content. *)
Definition to_string (u : URL) : text :=
  let i := impl_ u in
  let ss := scheme i ++ str "://" in
  let ss := ss ++ host i in
  let ss :=
    if negb (port i =? 0) then
      match find_port (scheme i) with
      | None => ss ++ str ":" ++ to_decimal (port i)
      | Some p =>
          if negb (p =? port i) then ss ++ str ":" ++ to_decimal (port i)
          else ss
      end
    else ss in
  let ss := ss ++ path i in
  let ss :=
    match query i with
    | _ :: _ => ss ++ str "?" ++ query i
    | [] => ss
    end in
  let ss :=
    match fragment i with
    | _ :: _ => ss ++ str "#" ++ fragment i
    | [] => ss
    end in
  ss.

(** [URL::is_secure] *)
Definition is_secure (u : URL) : bool :=
  text_eqb (scheme (impl_ u)) (str "https")
  || text_eqb (scheme (impl_ u)) (str "wss").

End URLOps.

Import URLOps.

(** ** Query parameters *)

(** [std::getline(ss, pair, '&')] on a stream with [s] left to read: the
    characters before the first [&], which is read and dropped, and what is
    left of the stream; without a [&] everything is read. *)
Fixpoint getline_amp (s : text) : text * text :=
  match s with
  | [] => ([], [])
  | c :: s' =>
      if Ascii.eqb c "&" then ([], s')
      else let (pair, rest) := getline_amp s' in (c :: pair, rest)
  end.

(** [pair.find('=')]; [None] stands for [std::string::npos]. *)
Fixpoint find_eq (s : text) : option nat :=
  match s with
  | [] => None
  | c :: s' => if Ascii.eqb c "=" then Some 0%nat else option_map S (find_eq s')
  end.

(** [query_params[key] = value]: the entry of [key] is replaced, or added
    when there is none.  The order of the entries of the unordered map is not
    specified and carries no meaning here. *)
Fixpoint assign (key value : text) (m : list (text * text)) : list (text * text) :=
  match m with
  | [] => [(key, value)]
  | (k, v) :: m' =>
      if text_eqb k key then (k, value) :: m' else (k, v) :: assign key value m'
  end.

Section QueryParams.

Variable stream_hex : text -> Z.

(** The body of the loop of [URLImpl::parse_query_params]. *)
Definition store_pair (pair : text) (m : list (text * text)) : list (text * text) :=
  match find_eq pair with
  | None => assign (decode_uri_component stream_hex pair) [] m
  | Some eq_pos =>
      let key := substr pair 0 eq_pos in
      let value := skipn (eq_pos + 1) pair in
      assign (decode_uri_component stream_hex key)
             (decode_uri_component stream_hex value) m
  end.

(** The loop of [URLImpl::parse_query_params]; [ss] is what is left of the
    stream.  The extraction fails, and the loop ends, when nothing is left;
    every other turn reads at least one character, so [query.length()] turns
    are enough. *)
Fixpoint query_loop (fuel : nat) (ss : text) (m : list (text * text))
    : list (text * text) :=
  match fuel with
  | O => m
  | S fuel' =>
      match ss with
      | [] => m
      | _ :: _ =>
          let (pair, rest) := getline_amp ss in
          query_loop fuel' rest (store_pair pair m)
      end
  end.

(** [URLImpl::parse_query_params]: the members are [mutable], the object is
    returned with its cache filled. *)
Definition parse_query_params (i : URLImpl) : URLImpl :=
  if query_params_parsed i then i
  else mkURLImpl (scheme i) (host i) (port i) (path i) (query i) (fragment i)
         (query_loop (List.length (query i)) (query i) (query_params i)) true.

End QueryParams.

(** * Vocabulary of the properties *)

Definition url_of (scheme host : string) (port : Z) (path query fragment : string)
    : URL :=
  mkURL (mkURLImpl (str scheme) (str host) port (str path) (str query)
           (str fragment) [] false).

(** Two objects with the same components other than the port. *)
Definition same_but_port (u u' : URL) : Prop :=
  scheme (impl_ u') = scheme (impl_ u)
  /\ host (impl_ u') = host (impl_ u)
  /\ path (impl_ u') = path (impl_ u)
  /\ query (impl_ u') = query (impl_ u)
  /\ fragment (impl_ u') = fragment (impl_ u)
  /\ query_params (impl_ u') = query_params (impl_ u)
  /\ query_params_parsed (impl_ u') = query_params_parsed (impl_ u).

(** Two objects with the same components other than the scheme. *)
Definition same_but_scheme (u u' : URL) : Prop :=
  host (impl_ u') = host (impl_ u)
  /\ port (impl_ u') = port (impl_ u)
  /\ path (impl_ u') = path (impl_ u)
  /\ query (impl_ u') = query (impl_ u)
  /\ fragment (impl_ u') = fragment (impl_ u)
  /\ query_params (impl_ u') = query_params (impl_ u)
  /\ query_params_parsed (impl_ u') = query_params_parsed (impl_ u).

(** ASCII letters by their codes. *)
Definition ascii_letter (c : ascii) : Prop :=
  65 <= ascii_code c <= 90 \/ 97 <= ascii_code c <= 122.

(** The lowered scheme text that [set_scheme] refuses: empty, or not
    starting with an ASCII letter. *)
Definition invalid_scheme_text (low : text) : Prop :=
  low = [] \/ exists c r, low = c :: r /\ ~ ascii_letter c.

(** The port segment is written: the port is not 0 and the default-port
    table has no entry for the scheme or an entry with another value. *)
Definition port_is_shown (sch : text) (p : Z) : Prop :=
  p <> 0 /\ (find_port sch = None \/ exists d, find_port sch = Some d /\ d <> p).

(** [out] is [scheme://host[:port]path[?query][#fragment]] for the given
    components. *)
Definition canonical_form (sch hst : text) (p : Z) (pth q f out : text) : Prop :=
  exists pseg qseg fseg,
    out = sch ++ str "://" ++ hst ++ pseg ++ pth ++ qseg ++ fseg
    /\ ((port_is_shown sch p /\ pseg = str ":" ++ to_decimal p)
        \/ (~ port_is_shown sch p /\ pseg = []))
    /\ ((q <> [] /\ qseg = str "?" ++ q) \/ (q = [] /\ qseg = []))
    /\ ((f <> [] /\ fseg = str "#" ++ f) \/ (f = [] /\ fseg = [])).

Definition matched (s : text) (r : regex) : smatch :=
  match regex_match s r with Some m => m | None => no_match end.

(** The decoding as the specification words it: [%] and two hexadecimal
    digits give the byte, [+] gives a space, every other character, a [%]
    that is not followed by two hexadecimal digits included, is copied. *)
Fixpoint decode_as_specified (s : text) : text :=
  match s with
  | [] => []
  | c :: s' =>
      let plain :=
        (if Ascii.eqb c "+" then " "%char else c) :: decode_as_specified s' in
      match s' with
      | a :: b :: rest =>
          if Ascii.eqb c "%" && isxdigit a && isxdigit b
          then char_of_int (16 * xdigit_value a + xdigit_value b)
                 :: decode_as_specified rest
          else plain
      | _ => plain
      end
  end.

Section DecodeScan.
Variable stream_hex : text -> Z.

(** The loop of [decode_uri_component] read as a left-to-right scan of
    what is left of the input. *)
Fixpoint decode_scan (s : text) : text :=
  match s with
  | [] => []
  | c :: s' =>
      let plain := (if Ascii.eqb c "+" then " "%char else c) :: decode_scan s' in
      match s' with
      | a :: b :: rest =>
          if Ascii.eqb c "%"
          then char_of_int (stream_hex [a; b]) :: decode_scan rest
          else plain
      | _ => plain
      end
  end.

End DecodeScan.

(** ** Declarative reading of the matcher *)

Definition fits (len : nat) (hi : option nat) : Prop :=
  match hi with Some h => (len <= h)%nat | None => True end.

(** [Matches r n w rest m m']: at position [n], with [rest] after it, [r] can
    consume exactly [w] and turn the sub-matches [m] into [m'].  The
    relation knows no priorities: it holds for every way [r] can match. *)
Inductive Matches : regex -> nat -> text -> text -> smatch -> smatch -> Prop :=
| M_Bol rest m : Matches Bol 0 [] rest m m
| M_Eol n m : Matches Eol n [] [] m m
| M_One a c n rest m :
    accepts a c = true -> Matches (One a) n [c] rest m m
| M_Many a lo hi n w rest m :
    Forall (fun c => accepts a c = true) w ->
    (lo <= List.length w)%nat -> fits (List.length w) hi ->
    Matches (Many a lo hi) n w rest m m
| M_Cat r1 r2 n w1 w2 rest m m1 m2 :
    Matches r1 n w1 (w2 ++ rest) m m1 ->
    Matches r2 (n + List.length w1) w2 rest m1 m2 ->
    Matches (Cat r1 r2) n (w1 ++ w2) rest m m2
| M_OrL r1 r2 n w rest m m' :
    Matches r1 n w rest m m' -> Matches (Or r1 r2) n w rest m m'
| M_OrR r1 r2 n w rest m m' :
    Matches r2 n w rest m m' -> Matches (Or r1 r2) n w rest m m'
| M_Take r n w rest m m' :
    Matches r n w rest m m' -> Matches (Maybe r) n w rest m m'
| M_Skip r n rest m : Matches (Maybe r) n [] rest m m
| M_Cap i r n w rest m m' :
    Matches r n w rest m m' -> Matches (Cap i r) n w rest m (set_group i w m').

(** Every group of [r] captures only words with the property [P]. *)
Fixpoint caps_ok (P : nat -> text -> Prop) (r : regex) : Prop :=
  match r with
  | Cap i r' =>
      (forall n w rest m m', Matches r' n w rest m m' -> P i w) /\ caps_ok P r'
  | Cat r1 r2 | Or r1 r2 => caps_ok P r1 /\ caps_ok P r2
  | Maybe r' => caps_ok P r'
  | _ => True
  end.

(** Where a greedy repetition that has taken [len] characters stops: at the
    end of the subject, before a character it does not accept, or at its
    upper bound. *)
Definition stops (a : cset) (hi : option nat) (len : nat) (rest : text) : Prop :=
  rest = [] \/ (exists c r, rest = c :: r /\ accepts a c = false)
  \/ hi = Some len.

Definition none_of (cs : string) (w : text) : Prop :=
  Forall (fun c => accepts (NoneOf (str cs)) c = true) w.

(** The optional segments of the canonical text. *)
Definition query_segment (q : text) : text :=
  match q with _ :: _ => str "?" ++ q | [] => [] end.

Definition fragment_segment (f : text) : text :=
  match f with _ :: _ => str "#" ++ f | [] => [] end.

(** The parts of [authority_regex]. *)
Definition userinfo_re : regex :=
  (Cap 1 (star (NoneOf (str "@:"))) ;;
   Maybe (lit ":" ;; Cap 2 (star (NoneOf (str "@")))) ;;
   lit "@")%re.

Definition bracket_host_re : regex :=
  (lit "[" ;; One (NoneOf []) ;; plus (Lit "]") ;; lit "]")%re.

Definition plain_host_re : regex := plus (NoneOf (str ":")).

Definition port_re : regex := (lit ":" ;; Cap 4 (Many Digit 1 (Some 5%nat)))%re.

(** The texts the host group can capture: an opening bracket, one
    character, two or more closing brackets; or a non-empty text without a
    colon. *)
Definition host_shape (h : text) : Prop :=
  (exists X bs, h = "[" :: X :: bs ++ ["]"]
     /\ (1 <= List.length bs)%nat
     /\ Forall (fun c => accepts (Lit "]") c = true) bs)
  \/ (h <> [] /\ none_of ":" h).

(** The texts the port group can capture. *)
Definition port_digits (d : text) : Prop :=
  Forall (fun c => accepts Digit c = true) d
  /\ (1 <= List.length d <= 5)%nat.

(** The port part of an authority for the captured port text [d]. *)
Definition port_text (d : text) : text :=
  match d with _ :: _ => ":" :: d | [] => [] end.

(** The final continuation of [regex_match]. *)
Definition whole (s : text) : cursor -> smatch -> option smatch :=
  fun st m => match snd st with [] => Some (set_group 0 s m) | _ :: _ => None end.

(** Every match of [r] sets group [i]. *)
Fixpoint sets_group (i : nat) (r : regex) : bool :=
  match r with
  | Cap j r' => Nat.eqb j i || sets_group i r'
  | Cat r1 r2 => sets_group i r1 || sets_group i r2
  | Or r1 r2 => sets_group i r1 && sets_group i r2
  | _ => false
  end.

(** What the groups of [url_regex] can capture. *)
Definition url_group (i : nat) (v : text) : Prop :=
  match i with
  | 2%nat => none_of ":/?#" v
  | 4%nat => none_of "/?#" v
  | 5%nat => none_of "?#" v
  | 7%nat => none_of "#" v
  | 9%nat => Forall (fun c => accepts Dot c = true) v
  | _ => True
  end.

(** What the groups of [authority_regex] can capture. *)
Definition authority_group (i : nat) (v : text) : Prop :=
  match i with
  | 3%nat => host_shape v
  | 4%nat => port_digits v
  | _ => True
  end.

(** The port text that [to_string] writes: none for port 0 and for the
    default port of the scheme. *)
Definition shown_digits (sch : text) (p : Z) : text :=
  if negb (p =? 0) then
    match find_port sch with
    | None => to_decimal p
    | Some d => if negb (d =? p) then to_decimal p else []
    end
  else [].

(** The components of a URL value are as the constructor leaves them. *)
Record well_formed (i : URLImpl) : Prop := {
  wf_scheme : none_of ":/?#" (scheme i);
  wf_scheme_lower : lowercase (scheme i) = scheme i;
  wf_host : (host i = [] /\ port i = 0)
            \/ (host_shape (host i) /\ none_of "/?#" (host i));
  wf_port : 0 <= port i < 65536;
  wf_path : none_of "?#" (path i);
  wf_query : none_of "#" (query i);
  wf_fragment : Forall (fun c => accepts Dot c = true) (fragment i)
}.

(** [stoi] reads back what [to_decimal] writes, which is one to five
    digits. *)
Definition decimal_ok (n : Z) : bool :=
  let d := to_decimal n in
  match stoi d with
  | inr v => v =? n
  | inl _ => false
  end
  && forallb (accepts Digit) d
  && (1 <=? List.length d)%nat
  && (List.length d <=? 5)%nat.

Fixpoint decimal_ok_from (count : nat) (n : Z) : bool :=
  match count with
  | O => true
  | S count' => decimal_ok n && decimal_ok_from count' (n + 1)
  end.

(** ** Vocabulary of the further properties *)

(** The port the constructor stores for the captured port text [d] under
    the (lowered) scheme [sch]: the number written, narrowed to 16 bits, or
    the default port of the scheme, or 0. *)
Definition port_of (sch d : text) : Z :=
  match d with
  | _ :: _ => to_uint16 (leading_digits d 0)
  | [] => match find_port sch with Some p => p | None => 0 end
  end.

(** The path the constructor stores for the matched path text. *)
Definition path_of (p : text) : text :=
  match p with _ :: _ => p | [] => str "/" end.

(** A path text as it can follow an authority: empty or starting with a
    slash. *)
Definition rooted (p : text) : Prop := p = [] \/ exists r, p = "/" :: r.

(** What follows the first [#] of a text; empty when there is none. *)
Fixpoint after_hash (s : text) : text :=
  match s with
  | [] => []
  | c :: r => if Ascii.eqb c "#" then r else after_hash r
  end.

(** The longest prefix without a character of [cs], and what follows it. *)
Fixpoint span_none (cs : text) (s : text) : text * text :=
  match s with
  | [] => ([], [])
  | c :: r =>
      if char_in c cs then ([], s)
      else let '(a, b) := span_none cs r in (c :: a, b)
  end.

(** [r] never consumes a [#]. *)
Fixpoint hash_free (r : regex) : bool :=
  match r with
  | Bol | Eol => true
  | One a | Many a _ _ => negb (accepts a "#")
  | Cat r1 r2 | Or r1 r2 => hash_free r1 && hash_free r2
  | Maybe r' | Cap _ r' => hash_free r'
  end.

(** The parts of [url_regex]. *)
Definition scheme_re : regex :=
  Maybe (Cap 1 (Cap 2 (plus (NoneOf (str ":/?#"))) ;; lit ":"))%re.

Definition authority_re : regex :=
  Maybe (Cap 3 (lit "/" ;; lit "/" ;; Cap 4 (star (NoneOf (str "/?#")))))%re.

Definition path_re : regex := Cap 5 (star (NoneOf (str "?#"))).

Definition query_re : regex :=
  Maybe (Cap 6 (lit "?" ;; Cap 7 (star (NoneOf (str "#")))))%re.

Definition fragment_re : regex := Maybe (Cap 8 (lit "#" ;; Cap 9 (star Dot)))%re.

(** A line terminator: line feed or carriage return. *)
Definition line_break (c : ascii) : Prop := c = "010" \/ c = "013".



(** ** Percent decoding and query parameters *)

Definition plus_to_space (c : ascii) : ascii :=
  if Ascii.eqb c "+" then " "%char else c.

(** [query_params.find(key)]; [None] stands for [query_params.end()]. *)
Definition param_value (key : text) (m : list (text * text)) : option text :=
  match find (fun e => text_eqb (fst e) key) m with
  | Some e => Some (snd e)
  | None => None
  end.

(** A parameter as it is written in a query: [key] or [key=value]. *)
Definition param_text (p : text * option text) : text :=
  fst p ++ match snd p with Some v => "=" :: v | None => [] end.

Definition written_value (p : text * option text) : text :=
  match snd p with Some v => v | None => [] end.

Fixpoint join_amp (ps : list text) : text :=
  match ps with
  | [] => []
  | p :: ps' => match ps' with [] => p | _ :: _ => p ++ "&" :: join_amp ps' end
  end.

(** The segments [ps], each followed by its [&]. *)
Fixpoint closed_text (ps : list text) : text :=
  match ps with
  | [] => []
  | p :: ps' => p ++ "&" :: closed_text ps'
  end.

(** Parameters that a query can hold one per segment: no key has a [&] or
    a [=], no value has a [&]. *)
Definition params_ok (ps : list (text * option text)) : Prop :=
  Forall (fun p => none_of "&=" (fst p) /\ none_of "&" (written_value p)) ps.

(** [q] is the query that holds the parameters [ps], one per segment, in
    their order: every segment is followed by a [&], and the [&] after the
    last segment may be missing when this segment is not empty.  No query
    is left out: each one holds some parameters in this way
    ([every_query_written]). *)
Definition written_as (q : text) (ps : list (text * option text)) : Prop :=
  params_ok ps
  /\ (q = closed_text (map param_text ps)
      \/ (q = join_amp (map param_text ps)
          /\ forall p, last (map Some ps) None = Some p -> param_text p <> [])).

(** What a parameter stores: its key and its value, decoded. *)
Definition stored (stream_hex : text -> Z) (m : list (text * text))
    (p : text * option text) : list (text * text) :=
  assign (decode_uri_component stream_hex (fst p))
         (decode_uri_component stream_hex (written_value p)) m.

(** * Properties *)

(** ** Basic facts *)

Lemma text_eqb_eq (a b : text) : text_eqb a b = true <-> a = b.
Proof.
  revert b; induction a as [|x a IH]; intros [|y b]; simpl; split;
    try congruence; try reflexivity.
  - intros H. apply andb_true_iff in H as [Hxy Hab].
    apply Ascii.eqb_eq in Hxy. apply IH in Hab. congruence.
  - intros H. inversion H; subst. rewrite Ascii.eqb_refl. simpl.
    apply IH. reflexivity.
Qed.

Lemma text_eqb_refl (a : text) : text_eqb a a = true.
Proof. apply text_eqb_eq. reflexivity. Qed.

(** The narrowed port is below 65536, so the range test that follows the
    assignment in the constructor never fires. *)
Lemma to_uint16_range (v : Z) : 0 <= to_uint16 v < 65536.
Proof. unfold to_uint16. apply Z.mod_pos_bound. lia. Qed.

Lemma range_check_never_fires (v : Z) : (to_uint16 v >? 65535) = false.
Proof. pose proof (to_uint16_range v). lia. Qed.

Lemma authority_port_explicit (scheme port_str : text) (v : Z) :
  stoi port_str = inr v ->
  authority_port scheme port_str = inr (to_uint16 v).
Proof.
  intros H. unfold authority_port. destruct port_str as [|c r].
  - discriminate H.
  - rewrite H, range_check_never_fires. reflexivity.
Qed.

Lemma authority_port_throws (scheme port_str : text) (e : exn) :
  authority_port scheme port_str = inl e -> e = InvalidPort.
Proof.
  unfold authority_port. destruct port_str as [|c r].
  - destruct (find_port scheme); discriminate.
  - destruct (stoi (c :: r)) as [e'|v].
    + intros H; inversion H; reflexivity.
    + rewrite range_check_never_fires. discriminate.
Qed.

(** The constructor throws nothing but [URLParseError]. *)
Lemma URLImpl_new_throws (url : text) (e : exn) :
  URLImpl_new url = inl e -> exists what, e = URLParseError what.
Proof.
  unfold URLImpl_new, parse_authority.
  destruct (regex_match url url_regex) as [m|]; [|intros H; inversion H; eauto].
  destruct (sub m 4) as [|c r].
  - discriminate.
  - destruct (regex_match (c :: r) authority_regex) as [am|];
      [|intros H; inversion H; eauto].
    destruct (authority_port _ _) as [e'|p] eqn:Hp; [|discriminate].
    intros H; inversion H; subst. apply authority_port_throws in Hp.
    subst. unfold InvalidPort. eauto.
Qed.

(** ** Parsing of particular inputs *)

(** With an empty authority capture nothing can make the constructor
    throw: whatever the outer pattern matched becomes a value. *)
Lemma empty_authority_accepted (url : text) (m : smatch) :
  regex_match url url_regex = Some m -> sub m 4 = [] ->
  exists u, parse url = inr (Some u)
    /\ host (impl_ u) = [] /\ port (impl_ u) = 0
    /\ scheme (impl_ u) = lowercase (sub m 2).
Proof.
  intros Hm H4. unfold parse, URLImpl_new, parse_authority.
  rewrite Hm, H4. eexists. split; [reflexivity|]. simpl. auto.
Qed.

(** C3.  The specification has [parse("not a url")] return no value.  The code
    returns a value: the outer pattern matches every text without a line
    break after the first [#], no scheme and no authority are captured, the
    authority block is skipped, and the whole input becomes the path. *)
Theorem parse_not_a_url_yields_a_value :
  parse (str "not a url") = inr (Some (url_of "" "" 0 "not a url" "" "")).
Proof. vm_compute. reflexivity. Qed.

(** C4.  The specification has [parse("http://")] return no value.  The code
    returns a value: the authority capture is empty, so the authority block
    (and with it the authority pattern) is skipped; the scheme is [http], host
    empty, port 0, and the empty path is defaulted to [/]. *)
Theorem parse_http_empty_authority_yields_a_value :
  parse (str "http://") = inr (Some (url_of "http" "" 0 "/" "" "")).
Proof. vm_compute. reflexivity. Qed.

(** ** parse and validate *)

(** C9.  The specification has [parse] and [validate] agree on every input.
    [validate] never raises and a valid report carries the empty reason, but
    it constructs no [URLImpl] and reports every input valid: for
    [http://example.com:065536/] and for [http://:80/], where the constructor
    fails and [parse] returns no value, [validate] still reports [valid]. *)
Theorem validate_reports_every_input_valid :
  (forall s : text, validate s = inr (mkValidationResult true ""))
  /\ URLImpl_new (str "http://example.com:065536/") = inl InvalidAuthority
  /\ parse (str "http://example.com:065536/") = inr None
  /\ parse (str "http://:80/") = inr None.
Proof.
  split; [intros s; reflexivity|].
  split; [vm_compute; reflexivity|].
  split; [vm_compute; reflexivity|].
  vm_compute. reflexivity.
Qed.

(** ** Mutators *)

(** C8.  [set_port(0)] fails with ZeroPort and leaves the object as it was;
    [set_port(p)] for [0 < p <= 65535] succeeds, stores [p] and changes no
    other component. *)
Theorem set_port_spec (u : URL) (p : Z) (Hp : 0 < p <= 65535) :
  set_port 0 u = (inl ZeroPort, u)
  /\ exists u', set_port p u = (inr tt, u')
       /\ port (impl_ u') = p /\ same_but_port u u'.
Proof.
  split; [reflexivity|].
  unfold set_port. replace (p =? 0) with false by lia.
  exists (with_port p u). unfold same_but_port. simpl. repeat split.
Qed.

Lemma set_port_spec_witness :
  let u := url_of "http" "example.com" 80 "/" "" "" in
  0 < 8080 <= 65535
  /\ set_port 0 u = (inl ZeroPort, u)
  /\ exists u', set_port 8080 u = (inr tt, u')
       /\ port (impl_ u') = 8080 /\ same_but_port u u'.
Proof.
  intros u. split; [lia|]. apply (set_port_spec u 8080). lia.
Defined.

Lemma lowercase_cons (c : ascii) (s : text) :
  lowercase (c :: s) = tolower c :: lowercase s.
Proof. reflexivity. Qed.

Lemma isalpha_letter (c : ascii) : isalpha c = true <-> ascii_letter c.
Proof.
  unfold isalpha, isupper, islower, ascii_letter.
  rewrite orb_true_iff, !andb_true_iff, !Z.leb_le. tauto.
Qed.

(** C7.  [set_scheme] lower-cases its argument; it fails with InvalidScheme
    exactly when the lowered text is empty or does not start with an ASCII
    letter, and then leaves the object as it was; otherwise it succeeds, the
    stored scheme is the lowered argument and no other component changes.
    [set_scheme("")] and [set_scheme("9abc")] fail; [set_scheme("HTTPS")]
    succeeds, after which [scheme()] is [https] and [is_secure()] holds. *)
Theorem set_scheme_spec (new_scheme : text) (u : URL) :
  (fst (set_scheme new_scheme u) = inl InvalidScheme
   <-> invalid_scheme_text (lowercase new_scheme))
  /\ (fst (set_scheme new_scheme u) = inr tt
      <-> ~ invalid_scheme_text (lowercase new_scheme))
  /\ (invalid_scheme_text (lowercase new_scheme) ->
      snd (set_scheme new_scheme u) = u)
  /\ (~ invalid_scheme_text (lowercase new_scheme) ->
      scheme (impl_ (snd (set_scheme new_scheme u))) = lowercase new_scheme
      /\ same_but_scheme u (snd (set_scheme new_scheme u)))
  /\ fst (set_scheme (str "") u) = inl InvalidScheme
  /\ fst (set_scheme (str "9abc") u) = inl InvalidScheme
  /\ fst (set_scheme (str "HTTPS") u) = inr tt
  /\ scheme (impl_ (snd (set_scheme (str "HTTPS") u))) = str "https"
  /\ is_secure (snd (set_scheme (str "HTTPS") u)) = true.
Proof.
  set (low := lowercase new_scheme).
  set (bad := invalid_scheme_text low).
  unfold set_scheme. fold low.
  assert (Hdec : (bad /\ (low = [] \/ exists c r, low = c :: r /\ isalpha c = false))
                 \/ (~ bad /\ exists c r, low = c :: r /\ isalpha c = true)).
  { subst bad. unfold invalid_scheme_text. destruct low as [|c r].
    - left. split; left; reflexivity.
    - destruct (isalpha c) eqn:Hc.
      + right. split; [|eauto]. intros [H|(c' & r' & H & Hn)]; [discriminate|].
        inversion H; subst. apply Hn, isalpha_letter, Hc.
      + left. split; right; exists c, r; split; auto.
        intros Hl. apply isalpha_letter in Hl. congruence. }
  refine (conj _ (conj _ (conj _ (conj _ _)))).
  - split.
    + intros H. destruct Hdec as [[Hb _]|[_ (c & r & E & Hc)]]; [exact Hb|].
      rewrite E, Hc in H. discriminate H.
    + intros Hb. destruct Hdec as [[_ [E|(c & r & E & Hc)]]|[Hn _]].
      * rewrite E. reflexivity.
      * rewrite E, Hc. reflexivity.
      * contradiction.
  - split.
    + intros H Hb. destruct Hdec as [[_ [E|(c & r & E & Hc)]]|[Hn _]].
      * rewrite E in H. discriminate H.
      * rewrite E, Hc in H. discriminate H.
      * contradiction.
    + intros Hn. destruct Hdec as [[Hb _]|[_ (c & r & E & Hc)]]; [contradiction|].
      rewrite E, Hc. reflexivity.
  - intros Hb. destruct Hdec as [[_ [E|(c & r & E & Hc)]]|[Hn _]].
    + rewrite E. reflexivity.
    + rewrite E, Hc. reflexivity.
    + contradiction.
  - intros Hn. destruct Hdec as [[Hb _]|[_ (c & r & E & Hc)]]; [contradiction|].
    rewrite E, Hc. unfold same_but_scheme. simpl. repeat split.
  - repeat split; vm_compute; reflexivity.
Qed.

(** ** Serialization *)

Lemma to_string_canonical (u : URL) :
  canonical_form (scheme (impl_ u)) (host (impl_ u)) (port (impl_ u))
    (path (impl_ u)) (query (impl_ u)) (fragment (impl_ u)) (to_string u).
Proof.
  destruct u as [[sch hst p pth q f qp qpp]]. unfold canonical_form, to_string.
  simpl impl_. cbn [scheme host port path query fragment].
  set (pseg := if negb (p =? 0)
               then match find_port sch with
                    | None => str ":" ++ to_decimal p
                    | Some d => if negb (d =? p) then str ":" ++ to_decimal p else []
                    end
               else []).
  exists pseg, (match q with _ :: _ => str "?" ++ q | [] => [] end),
         (match f with _ :: _ => str "#" ++ f | [] => [] end).
  split; [|split; [|split]].
  - subst pseg. destruct (negb (p =? 0)); [destruct (find_port sch) as [d|];
      [destruct (negb (d =? p))|]|]; destruct q; destruct f;
      rewrite <- ?app_assoc, ?app_nil_r; reflexivity.
  - subst pseg. unfold port_is_shown. destruct (Z.eqb_spec p 0) as [E|E]; simpl.
    + right. split; [tauto|reflexivity].
    + destruct (find_port sch) as [d|].
      * destruct (Z.eqb_spec d p) as [E'|E']; simpl.
        -- right. split; [|reflexivity].
           intros [_ [H|(d' & H & Hd)]]; [discriminate|]. congruence.
        -- left. split; [|reflexivity]. split; [exact E|]. right. eauto.
      * left. split; [|reflexivity]. split; [exact E|]. left. reflexivity.
  - destruct q; [right|left]; split; congruence.
  - destruct f; [right|left]; split; congruence.
Qed.

(** C6.  [to_string] writes [scheme://host[:port]path[?query][#fragment]];
    the port segment is present exactly when the port is not 0 and the
    default-port table has no entry for the scheme or an entry that differs
    from the port.  The scheme consulted is the one stored when [to_string]
    runs: after a successful [set_scheme] it is the new scheme, so the same
    port 443 is written under [http] and omitted under [https]. *)
Theorem to_string_spec (u : URL) (new_scheme : text) :
  canonical_form (scheme (impl_ u)) (host (impl_ u)) (port (impl_ u))
    (path (impl_ u)) (query (impl_ u)) (fragment (impl_ u)) (to_string u)
  /\ (fst (set_scheme new_scheme u) = inl InvalidScheme
      \/ (fst (set_scheme new_scheme u) = inr tt
          /\ canonical_form (lowercase new_scheme) (host (impl_ u))
               (port (impl_ u)) (path (impl_ u)) (query (impl_ u))
               (fragment (impl_ u)) (to_string (snd (set_scheme new_scheme u)))))
  /\ (let v := url_of "http" "example.com" 443 "/" "" "" in
      to_string v = str "http://example.com:443/"
      /\ to_string (snd (set_scheme (str "https") v)) = str "https://example.com/"
      /\ to_string (snd (set_scheme (str "http") (snd (set_scheme (str "https") v))))
         = str "http://example.com:443/").
Proof.
  split; [apply to_string_canonical|]. split.
  - pose proof (to_string_canonical (snd (set_scheme new_scheme u))) as H.
    revert H. unfold set_scheme.
    destruct (lowercase new_scheme) as [|c r] eqn:E; [left; reflexivity|].
    destruct (isalpha c); simpl; [|left; reflexivity].
    intros H. right. split; [reflexivity|exact H].
  - repeat split; vm_compute; reflexivity.
Qed.

(** ** An explicit port 0 *)

Lemma authority_regex_rejects_empty : regex_match [] authority_regex = None.
Proof. vm_compute. reflexivity. Qed.

(** C10.  When the authority of the input carries the explicit port text
    [0], the parse succeeds with [port() == 0]: the default-port table is not
    consulted, whatever the scheme, and [to_string] writes no port segment.
    For [http://example.com:0/] the port is 0 although the table maps
    [http] to 80 (which is the port of [http://example.com/]), and the
    canonical text is [http://example.com/]. *)
Theorem explicit_port_zero (url : text) (m am : smatch)
    (Hm : regex_match url url_regex = Some m)
    (Ham : regex_match (sub m 4) authority_regex = Some am)
    (Hport : sub am 4 = str "0") :
  (exists u, parse url = inr (Some u)
     /\ port (impl_ u) = 0
     /\ scheme (impl_ u) = lowercase (sub m 2)
     /\ host (impl_ u) = sub am 3
     /\ ~ port_is_shown (scheme (impl_ u)) (port (impl_ u))
     /\ exists qseg fseg,
          to_string u = scheme (impl_ u) ++ str "://" ++ host (impl_ u)
                        ++ path (impl_ u) ++ qseg ++ fseg
          /\ ((query (impl_ u) <> [] /\ qseg = str "?" ++ query (impl_ u))
              \/ (query (impl_ u) = [] /\ qseg = []))
          /\ ((fragment (impl_ u) <> [] /\ fseg = str "#" ++ fragment (impl_ u))
              \/ (fragment (impl_ u) = [] /\ fseg = [])))
  /\ parse (str "http://example.com:0/")
     = inr (Some (url_of "http" "example.com" 0 "/" "" ""))
  /\ find_port (str "http") = Some 80
  /\ parse (str "http://example.com/")
     = inr (Some (url_of "http" "example.com" 80 "/" "" ""))
  /\ to_string (url_of "http" "example.com" 0 "/" "" "") = str "http://example.com/".
Proof.
  split; [|repeat split; vm_compute; reflexivity].
  unfold parse, URLImpl_new, parse_authority. rewrite Hm.
  destruct (sub m 4) as [|c r] eqn:E.
  - rewrite authority_regex_rejects_empty in Ham. discriminate Ham.
  - rewrite Ham, Hport. simpl authority_port.
    eexists. split; [reflexivity|]. simpl impl_.
    cbn [scheme host port path query fragment].
    split; [reflexivity|]. split; [reflexivity|]. split; [reflexivity|].
    split; [unfold port_is_shown; intros [H _]; apply H; reflexivity|].
    unfold to_string. simpl impl_. cbn [scheme host port path query fragment].
    simpl negb. cbv iota.
    exists (match sub m 7 with _ :: _ => str "?" ++ sub m 7 | [] => [] end),
           (match sub m 9 with _ :: _ => str "#" ++ sub m 9 | [] => [] end).
    split; [|split].
    + destruct (sub m 7); destruct (sub m 9);
        rewrite <- ?app_assoc, ?app_nil_r; reflexivity.
    + destruct (sub m 7); [right|left]; split; congruence.
    + destruct (sub m 9); [right|left]; split; congruence.
Qed.

Lemma explicit_port_zero_witness :
  let url := str "http://example.com:0/" in
  let m := matched url url_regex in
  let am := matched (sub m 4) authority_regex in
  regex_match url url_regex = Some m
  /\ regex_match (sub m 4) authority_regex = Some am
  /\ sub am 4 = str "0"
  /\ exists u, parse url = inr (Some u) /\ port (impl_ u) = 0.
Proof.
  intros url m am.
  assert (Hm : regex_match url url_regex = Some m) by reflexivity.
  assert (Ham : regex_match (sub m 4) authority_regex = Some am) by reflexivity.
  assert (Hport : sub am 4 = str "0") by reflexivity.
  split; [exact Hm|]. split; [exact Ham|]. split; [exact Hport|].
  destruct (explicit_port_zero url m am Hm Ham Hport) as [(u & Hu & Hp & _) _].
  exists u. split; assumption.
Defined.

(** ** Percent decoding *)

Section DecodeScanFacts.
Variable stream_hex : text -> Z.

Lemma nth_middle_char (pre : text) (c : ascii) (s : text) :
  nth (List.length pre) (pre ++ c :: s) zero = c.
Proof. rewrite app_nth2, Nat.sub_diag by lia. reflexivity. Qed.

Lemma decode_loop_scan (fuel : nat) :
  forall (suf pre acc : text),
    (List.length suf <= fuel)%nat ->
    decode_loop stream_hex fuel (pre ++ suf) (List.length pre) acc
    = acc ++ decode_scan stream_hex suf.
Proof.
  induction fuel as [|fuel IH]; intros suf pre acc Hlen.
  - destruct suf; [|simpl in Hlen; lia]. simpl. rewrite app_nil_r. reflexivity.
  - destruct suf as [|c s'].
    + cbn [decode_loop]. rewrite app_nil_r, Nat.ltb_irrefl, app_nil_r.
      reflexivity.
    + cbn [decode_loop].
      replace (List.length pre <? List.length (pre ++ c :: s'))%nat with true
        by (symmetry; apply Nat.ltb_lt; rewrite length_app; simpl; lia).
      rewrite nth_middle_char.
      assert (Hstep : forall x,
                 decode_loop stream_hex fuel (pre ++ c :: s')
                   (List.length pre + 1) (acc ++ [x])
                 = acc ++ x :: decode_scan stream_hex s').
      { intros x.
        replace (pre ++ c :: s') with ((pre ++ [c]) ++ s')
          by (rewrite <- app_assoc; reflexivity).
        replace (List.length pre + 1)%nat with (List.length (pre ++ [c]))
          by (rewrite length_app; reflexivity).
        rewrite IH by (simpl in Hlen; lia).
        rewrite <- app_assoc. reflexivity. }
      destruct s' as [|a [|b rest]].
      * replace (List.length pre + 2 <? List.length (pre ++ [c]))%nat with false
          by (symmetry; apply Nat.ltb_ge; rewrite length_app; simpl; lia).
        rewrite andb_false_r. cbn [decode_scan].
        destruct (Ascii.eqb c "+"); apply Hstep.
      * replace (List.length pre + 2 <? List.length (pre ++ [c; a]))%nat
          with false
          by (symmetry; apply Nat.ltb_ge; rewrite length_app; simpl; lia).
        rewrite andb_false_r.
        change (decode_scan stream_hex [c; a])
          with ((if Ascii.eqb c "+" then " "%char else c) :: decode_scan stream_hex [a]).
        destruct (Ascii.eqb c "+"); apply Hstep.
      * replace (List.length pre + 2 <? List.length (pre ++ c :: a :: b :: rest))%nat
          with true
          by (symmetry; apply Nat.ltb_lt; rewrite length_app; simpl; lia).
        rewrite andb_true_r.
        change (decode_scan stream_hex (c :: a :: b :: rest))
          with (if Ascii.eqb c "%"
                then char_of_int (stream_hex [a; b]) :: decode_scan stream_hex rest
                else (if Ascii.eqb c "+" then " "%char else c)
                       :: decode_scan stream_hex (a :: b :: rest)).
        destruct (Ascii.eqb c "%").
        -- replace (substr (pre ++ c :: a :: b :: rest) (List.length pre + 1) 2)
             with [a; b].
           2:{ unfold substr.
               replace (pre ++ c :: a :: b :: rest)
                 with ((pre ++ [c]) ++ a :: b :: rest)
                 by (rewrite <- app_assoc; reflexivity).
               replace (List.length pre + 1)%nat with (List.length (pre ++ [c]))
                 by (rewrite length_app; reflexivity).
               rewrite skipn_app, skipn_all, Nat.sub_diag. reflexivity. }
           replace (pre ++ c :: a :: b :: rest)
             with ((pre ++ [c; a; b]) ++ rest)
             by (rewrite <- app_assoc; reflexivity).
           replace (List.length pre + 2 + 1)%nat
             with (List.length (pre ++ [c; a; b]))
             by (rewrite length_app; simpl; lia).
           rewrite IH by (simpl in Hlen; lia).
           rewrite <- app_assoc. reflexivity.
        -- destruct (Ascii.eqb c "+"); apply Hstep.
Qed.

Lemma decode_uri_component_scan (s : text) :
  decode_uri_component stream_hex s = decode_scan stream_hex s.
Proof.
  unfold decode_uri_component.
  apply (decode_loop_scan (List.length s) s [] []). lia.
Qed.
End DecodeScanFacts.

Lemma xdigit_value_range (c : ascii) :
  isxdigit c = true -> 0 <= xdigit_value c <= 15.
Proof.
  unfold isxdigit, xdigit_value, isdigit.
  destruct (Z.leb_spec 48 (ascii_code c)); destruct (Z.leb_spec (ascii_code c) 57);
    destruct (Z.leb_spec 97 (ascii_code c));
    destruct (Z.leb_spec (ascii_code c) 102);
    destruct (Z.leb_spec 65 (ascii_code c));
    destruct (Z.leb_spec (ascii_code c) 70);
    simpl; intros Hx; try discriminate Hx; lia.
Qed.

Lemma ascii_code_char_of_int (v : Z) :
  0 <= v < 256 -> ascii_code (char_of_int v) = v.
Proof.
  intros H. unfold ascii_code, char_of_int.
  rewrite Z.mod_small by lia.
  rewrite N_ascii_embedding by lia. lia.
Qed.

(** C5, as stated, fails at the input [%zz]: the specification copies the
    three characters, the code replaces them by one byte, whatever the
    hexadecimal extraction leaves for [zz]. *)
Lemma decode_percent_without_hex_digits :
  decode_as_specified (str "%zz") = str "%zz"
  /\ ~ exists stream_hex,
         decode_uri_component stream_hex (str "%zz")
         = decode_as_specified (str "%zz").
Proof.
  split; [reflexivity|]. intros [f H]. vm_compute in H. discriminate H.
Qed.

(** C5, amended.  [decode_uri_component] scans its input left to right: a
    [%] followed by at least two characters is replaced, together with the
    two characters, by one byte, the byte the two denote when they are
    hexadecimal digits (they are not checked to be); a [+] that is not taken
    by such an escape becomes a space; every character other than [%] and [+]
    is copied; a [%] with fewer than two characters after it is copied. *)
Theorem decode_uri_component_spec (stream_hex : text -> Z)
    (Hhex : forall a b, isxdigit a = true -> isxdigit b = true ->
              stream_hex [a; b] = 16 * xdigit_value a + xdigit_value b)
    (rest : text) :
  let decode := decode_uri_component stream_hex in
  (forall a b, isxdigit a = true -> isxdigit b = true ->
     exists byte, decode ("%" :: a :: b :: rest) = byte :: decode rest
       /\ ascii_code byte = 16 * xdigit_value a + xdigit_value b)
  /\ (forall a b, decode ("%" :: a :: b :: rest)
                 = char_of_int (stream_hex [a; b]) :: decode rest)
  /\ decode ("+" :: rest) = " " :: decode rest
  /\ (forall c, c <> "%" -> c <> "+" -> decode (c :: rest) = c :: decode rest)
  /\ decode [] = []
  /\ decode ["%"] = ["%"]
  /\ (forall c, decode ["%"; c] = "%" :: decode [c]).
Proof.
  intros decode. subst decode. cbv beta.
  assert (Hesc : forall a b,
             decode_uri_component stream_hex ("%" :: a :: b :: rest)
             = char_of_int (stream_hex [a; b])
                 :: decode_uri_component stream_hex rest).
  { intros a b. rewrite !decode_uri_component_scan. reflexivity. }
  refine (conj _ (conj Hesc (conj _ (conj _ (conj _ (conj _ _)))))).
  - intros a b Ha Hb. eexists. split; [apply Hesc|].
    rewrite Hhex by assumption.
    pose proof (xdigit_value_range a Ha). pose proof (xdigit_value_range b Hb).
    apply ascii_code_char_of_int. lia.
  - rewrite !decode_uri_component_scan. destruct rest as [|a [|b r]]; reflexivity.
  - intros c Hp Hs. rewrite !decode_uri_component_scan.
    apply Ascii.eqb_neq in Hp, Hs.
    destruct rest as [|a [|b r]]; cbn [decode_scan]; rewrite ?Hp, ?Hs; reflexivity.
  - reflexivity.
  - reflexivity.
  - intros c. rewrite !decode_uri_component_scan. reflexivity.
Qed.

Lemma hex_pair_xdigits (a b : ascii) :
  isxdigit a = true -> isxdigit b = true ->
  hex_pair [a; b] = 16 * xdigit_value a + xdigit_value b.
Proof. intros Ha Hb. unfold hex_pair. rewrite Ha, Hb. reflexivity. Qed.

Lemma decode_uri_component_spec_witness :
  (forall a b, isxdigit a = true -> isxdigit b = true ->
     hex_pair [a; b] = 16 * xdigit_value a + xdigit_value b)
  /\ decode_uri_component hex_pair (str "%41+b")
     = "A"%char :: decode_uri_component hex_pair (str "+b").
Proof.
  split; [exact hex_pair_xdigits|].
  exact (proj1 (proj2
           (decode_uri_component_spec hex_pair hex_pair_xdigits (str "+b")))
           "4"%char "1"%char).
Defined.

(** ** The matcher and its declarative reading *)

Lemma firstn_length_app (w r : text) : firstn (List.length w) (w ++ r) = w.
Proof. induction w as [|c w IH]; simpl; [destruct r|rewrite IH]; reflexivity. Qed.

Lemma many_sound {A : Type} (a : cset) (s : text) :
  forall lo hi n (k : cursor -> option A) x,
    many a lo hi n s k = Some x ->
    exists w rest,
      s = w ++ rest /\ Forall (fun c => accepts a c = true) w
      /\ (lo <= List.length w)%nat /\ fits (List.length w) hi
      /\ k ((n + List.length w)%nat, rest) = Some x.
Proof.
  assert (Hstop : forall lo (rest : text) hi n (k : cursor -> option A) x,
             match lo with O => k (n, rest) | S _ => None end = Some x ->
             exists w rest',
               rest = w ++ rest' /\ Forall (fun c => accepts a c = true) w
               /\ (lo <= List.length w)%nat /\ fits (List.length w) hi
               /\ k ((n + List.length w)%nat, rest') = Some x).
  { intros lo rest hi n k x H. destruct lo; [|discriminate H].
    exists [], rest. simpl. rewrite Nat.add_0_r.
    repeat split; auto. destruct hi; simpl; lia. }
  induction s as [|c s IH]; intros lo hi n k x H.
  - apply Hstop. exact H.
  - cbn [many] in H.
    destruct (accepts a c && below 0 hi) eqn:E; [|apply Hstop; exact H].
    destruct (many a (Nat.pred lo) (dec_hi hi) (S n) s k) as [y|] eqn:E2;
      [|apply Hstop; exact H].
    inversion H; subst y. apply andb_true_iff in E as [Ec Eh].
    destruct (IH _ _ _ _ _ E2) as (w & rest & -> & Hw & Hlo & Hhi & Hk).
    exists (c :: w), rest. simpl.
    replace (n + S (List.length w))%nat with (S n + List.length w)%nat by lia.
    repeat split; auto; try lia.
    destruct hi as [h|]; simpl in *; auto.
    apply Nat.ltb_lt in Eh. lia.
Qed.

Lemma run_sound {A : Type} (r : regex) :
  forall n s m (k : cursor -> smatch -> option A) x,
    run r (n, s) m k = Some x ->
    exists w rest m',
      s = w ++ rest /\ Matches r n w rest m m'
      /\ k ((n + List.length w)%nat, rest) m' = Some x.
Proof.
  induction r as [| |a|a lo hi|r1 IH1 r2 IH2|r1 IH1 r2 IH2|r1 IH1|i r1 IH1];
    intros n s m k x H; cbn [run fst snd] in H.
  - destruct n; [|discriminate H]. exists [], s, m. simpl.
    repeat split; auto. constructor.
  - destruct s; [|discriminate H]. exists [], [], m. simpl.
    rewrite Nat.add_0_r. repeat split; auto. constructor.
  - destruct s as [|c s]; [discriminate H|].
    destruct (accepts a c) eqn:E; [|discriminate H].
    exists [c], s, m. simpl. rewrite Nat.add_1_r.
    repeat split; auto. constructor. exact E.
  - apply many_sound in H as (w & rest & -> & Hw & Hlo & Hhi & Hk).
    exists w, rest, m. repeat split; auto. constructor; auto.
  - apply IH1 in H as (w1 & rest1 & m1 & -> & H1 & Hk1).
    apply IH2 in Hk1 as (w2 & rest & m2 & -> & H2 & Hk2).
    exists (w1 ++ w2), rest, m2. rewrite <- app_assoc, length_app, Nat.add_assoc.
    repeat split; auto. econstructor; eauto.
  - destruct (run r1 (n, s) m k) as [y|] eqn:E.
    + inversion H; subst y. apply IH1 in E as (w & rest & m' & -> & H1 & Hk).
      exists w, rest, m'. repeat split; auto. apply M_OrL. exact H1.
    + apply IH2 in H as (w & rest & m' & -> & H1 & Hk).
      exists w, rest, m'. repeat split; auto. apply M_OrR. exact H1.
  - destruct (run r1 (n, s) m k) as [y|] eqn:E.
    + inversion H; subst y. apply IH1 in E as (w & rest & m' & -> & H1 & Hk).
      exists w, rest, m'. repeat split; auto. apply M_Take. exact H1.
    + exists [], s, m. simpl. rewrite Nat.add_0_r.
      repeat split; auto. apply M_Skip.
  - apply IH1 in H as (w & rest & m' & -> & H1 & Hk).
    cbn [fst] in Hk.
    replace (n + List.length w - n)%nat with (List.length w) in Hk by lia.
    rewrite firstn_length_app in Hk.
    exists w, rest, (set_group i w m'). repeat split; auto.
    apply M_Cap. exact H1.
Qed.

Lemma regex_match_sound (s : text) (r : regex) (m : smatch) :
  regex_match s r = Some m ->
  exists m', Matches r 0 s [] no_match m' /\ m = set_group 0 s m'.
Proof.
  unfold regex_match. intros H.
  apply run_sound in H as (w & rest & m' & -> & H1 & Hk).
  cbn [snd] in Hk. destruct rest; [|discriminate Hk].
  inversion Hk; subst m. rewrite app_nil_r in *. eauto.
Qed.

Lemma Matches_caps_ok (P : nat -> text -> Prop) r n w rest m m' :
  Matches r n w rest m m' -> caps_ok P r ->
  (forall i v, m i = Some v -> P i v) ->
  forall i v, m' i = Some v -> P i v.
Proof.
  induction 1; cbn [caps_ok]; intros Hok Hm; auto.
  - destruct Hok as [Hok1 Hok2]. auto.
  - destruct Hok as [Hok1 Hok2]. auto.
  - destruct Hok as [Hok1 Hok2]. auto.
  - destruct Hok as [HP Hok]. intros j v. unfold set_group.
    destruct (Nat.eqb_spec j i) as [->|Hne].
    + intros Hv; inversion Hv; subst v. eapply HP; eauto.
    + apply IHMatches; auto.
Qed.

(** A sub-match set during a match is a part of what was consumed. *)
Lemma Matches_infix r n w rest m m' :
  Matches r n w rest m m' ->
  forall i v, m' i = Some v -> m i = Some v \/ exists a b, w = a ++ v ++ b.
Proof.
  induction 1; intros j v Hv; auto.
  - destruct (IHMatches2 _ _ Hv) as [H1|(a & b & ->)].
    + destruct (IHMatches1 _ _ H1) as [H2|(a & b & ->)]; [left; exact H2|].
      right. exists a, (b ++ w2). rewrite <- !app_assoc. reflexivity.
    + right. exists (w1 ++ a), b. rewrite <- !app_assoc. reflexivity.
  - unfold set_group in Hv. destruct (Nat.eqb_spec j i) as [->|Hne].
    + inversion Hv; subst v. right. exists [], []. rewrite app_nil_r. reflexivity.
    + auto.
Qed.

(** ** Greedy repetition *)

Lemma many_stop {A : Type} (a : cset) lo hi n rest (k : cursor -> option A) :
  stops a hi 0 rest ->
  many a lo hi n rest k = match lo with O => k (n, rest) | S _ => None end.
Proof.
  intros [->|[(c & r & -> & Hc)| ->]]; [reflexivity| |].
  - cbn [many]. rewrite Hc. reflexivity.
  - destruct rest; [reflexivity|]. cbn [many below].
    rewrite Nat.ltb_irrefl, andb_false_r. reflexivity.
Qed.

Lemma stops_tail (a : cset) hi len rest :
  stops a hi (S len) rest -> stops a (dec_hi hi) len rest.
Proof.
  intros [H|[H|H]]; [left; exact H|right; left; exact H|].
  right; right. subst hi. reflexivity.
Qed.

Lemma fits_tail len hi : fits (S len) hi -> fits len (dec_hi hi) /\ below 0 hi = true.
Proof.
  destruct hi as [h|]; simpl; [|auto]. intros H. split; [lia|].
  apply Nat.ltb_lt. lia.
Qed.

(** The repetition takes all of [w] when what follows then matches. *)
Lemma many_greedy {A : Type} (a : cset) (w : text) :
  forall lo hi n rest (k : cursor -> option A) x,
    Forall (fun c => accepts a c = true) w ->
    stops a hi (List.length w) rest ->
    (lo <= List.length w)%nat -> fits (List.length w) hi ->
    k ((n + List.length w)%nat, rest) = Some x ->
    many a lo hi n (w ++ rest) k = Some x.
Proof.
  induction w as [|c w IH]; intros lo hi n rest k x Hw Hs Hlo Hhi Hk.
  - simpl in *. rewrite Nat.add_0_r in Hk. rewrite many_stop by exact Hs.
    destruct lo; [exact Hk|lia].
  - inversion Hw; subst. simpl app. cbn [many].
    apply fits_tail in Hhi as [Hhi Hb]. rewrite H1, Hb. simpl andb.
    rewrite (IH (Nat.pred lo) (dec_hi hi) (S n) rest k x); auto.
    + apply stops_tail. exact Hs.
    + simpl in Hlo. lia.
    + simpl in Hk. rewrite <- Hk. f_equal. f_equal. lia.
Qed.

(** The repetition gives back its last character when what follows fails
    after all of [w ++ [c]] and matches after [w]. *)
Lemma many_back_one {A : Type} (a : cset) (w : text) :
  forall c lo hi n rest (k : cursor -> option A) x,
    Forall (fun c => accepts a c = true) (w ++ [c]) ->
    stops a hi (S (List.length w)) rest ->
    (lo <= List.length w)%nat -> fits (S (List.length w)) hi ->
    k ((n + S (List.length w))%nat, rest) = None ->
    k ((n + List.length w)%nat, c :: rest) = Some x ->
    many a lo hi n ((w ++ [c]) ++ rest) k = Some x.
Proof.
  induction w as [|d w IH]; intros c lo hi n rest k x Hw Hs Hlo Hhi Hn Hk.
  - simpl in *. inversion Hw; subst. cbn [many].
    apply fits_tail in Hhi as [Hhi Hb]. rewrite H1, Hb. simpl andb.
    rewrite many_stop by (apply stops_tail; exact Hs).
    destruct lo; [|lia]. simpl Nat.pred. rewrite Nat.add_1_r in Hn.
    rewrite Hn. rewrite Nat.add_0_r in Hk. exact Hk.
  - simpl in Hw. inversion Hw; subst. simpl app. cbn [many].
    apply fits_tail in Hhi as [Hhi Hb]. rewrite H1, Hb. simpl andb.
    rewrite (IH c (Nat.pred lo) (dec_hi hi) (S n) rest k x); auto.
    + apply stops_tail. exact Hs.
    + simpl in Hlo. lia.
    + simpl in Hn. rewrite <- Hn. f_equal. f_equal. lia.
    + simpl in Hk. rewrite <- Hk. f_equal. f_equal. lia.
Qed.

Lemma first_some {A : Type} (a b : option A) (x : A) :
  a = Some x -> match a with Some y => Some y | None => b end = Some x.
Proof. intros ->. reflexivity. Qed.

Lemma cap_many_greedy {A : Type} i a lo hi n w rest m
    (k : cursor -> smatch -> option A) x :
  Forall (fun c => accepts a c = true) w ->
  stops a hi (List.length w) rest ->
  (lo <= List.length w)%nat -> fits (List.length w) hi ->
  k ((n + List.length w)%nat, rest) (set_group i w m) = Some x ->
  run (Cap i (Many a lo hi)) (n, w ++ rest) m k = Some x.
Proof.
  intros Hw Hs Hlo Hhi Hk. cbn [run fst snd].
  apply many_greedy; auto. cbn [fst].
  replace (n + List.length w - n)%nat with (List.length w) by lia.
  rewrite firstn_length_app. exact Hk.
Qed.

(** ** Steps of the matcher *)

Section Steps.
Context {A : Type}.
Implicit Types (k : cursor -> smatch -> option A).

Lemma run_cat r1 r2 st m k :
  run (Cat r1 r2) st m k = run r1 st m (fun st' m' => run r2 st' m' k).
Proof. reflexivity. Qed.

Lemma run_bol s m k : run Bol (0%nat, s) m k = k (0%nat, s) m.
Proof. reflexivity. Qed.

Lemma run_eol n m k : run Eol (n, []) m k = k (n, []) m.
Proof. reflexivity. Qed.

Lemma run_lit c n s m k : run (lit c) (n, c :: s) m k = k (S n, s) m.
Proof. cbn. rewrite Ascii.eqb_refl. reflexivity. Qed.

Lemma run_cap i r n s m k :
  run (Cap i r) (n, s) m k
  = run r (n, s) m (fun st' m' => k st' (set_group i (firstn (fst st' - n) s) m')).
Proof. reflexivity. Qed.

Lemma run_maybe_take r st m k x :
  run r st m k = Some x -> run (Maybe r) st m k = Some x.
Proof. intros H. cbn [run]. rewrite H. reflexivity. Qed.

Lemma run_maybe_skip r st m k :
  run r st m k = None -> run (Maybe r) st m k = k st m.
Proof. intros H. cbn [run]. rewrite H. reflexivity. Qed.

Lemma run_or_left r1 r2 st m k x :
  run r1 st m k = Some x -> run (Or r1 r2) st m k = Some x.
Proof. intros H. cbn [run]. rewrite H. reflexivity. Qed.

Lemma run_or_right r1 r2 st m k :
  run r1 st m k = None -> run (Or r1 r2) st m k = run r2 st m k.
Proof. intros H. cbn [run]. rewrite H. reflexivity. Qed.
End Steps.

Lemma stops_nil a hi len : stops a hi len [].
Proof. left. reflexivity. Qed.

Lemma stops_cons a hi len c r : accepts a c = false -> stops a hi len (c :: r).
Proof. intros H. right. left. eauto. Qed.

Ltac take_all H :=
  unfold star, plus;
  apply cap_many_greedy;
  [ exact H
  | first [ apply stops_nil | apply stops_cons; reflexivity ]
  | try (simpl; lia)
  | exact I
  | cbv beta ].

Lemma cap_many_greedy_end {A : Type} i a lo hi n w m
    (k : cursor -> smatch -> option A) x :
  Forall (fun c => accepts a c = true) w ->
  (lo <= List.length w)%nat -> fits (List.length w) hi ->
  k ((n + List.length w)%nat, []) (set_group i w m) = Some x ->
  run (Cap i (Many a lo hi)) (n, w) m k = Some x.
Proof.
  intros Hw Hlo Hhi Hk. rewrite <- (app_nil_r w) at 1.
  apply cap_many_greedy; auto. left. reflexivity.
Qed.

Ltac take_end H :=
  unfold star, plus;
  apply cap_many_greedy_end;
  [ exact H | try (simpl; lia) | exact I | cbv beta ].

Ltac take_as W H :=
  unfold star, plus;
  apply cap_many_greedy with (w := W);
  [ exact H
  | first [ apply stops_nil | apply stops_cons; reflexivity ]
  | try (simpl; lia)
  | exact I
  | cbv beta ].

Lemma url_regex_canonical (sch auth p q f : text) :
  sch <> [] -> none_of ":/?#" sch -> none_of "/?#" auth ->
  none_of "?#" ("/" :: p) -> none_of "#" q ->
  Forall (fun c => accepts Dot c = true) f ->
  exists m,
    regex_match (sch ++ str "://" ++ auth ++ ("/" :: p) ++ query_segment q
                   ++ fragment_segment f) url_regex = Some m
    /\ sub m 2 = sch /\ sub m 4 = auth /\ sub m 5 = "/" :: p
    /\ sub m 7 = q /\ sub m 9 = f.
Proof.
  intros Hne Hsch Hauth Hp Hq Hf.
  assert (Hlen : (1 <= List.length sch)%nat) by (destruct sch; [congruence|simpl; lia]).
  unfold regex_match, url_regex.
  destruct q as [|cq q]; destruct f as [|cf f];
    cbn [query_segment fragment_segment str list_ascii_of_string app];
    rewrite ?app_nil_r;
    (eexists; split;
     [ rewrite run_cat, run_bol, run_cat; apply run_maybe_take;
       rewrite run_cap, run_cat; take_all Hsch;
       rewrite run_lit, run_cat; apply run_maybe_take;
       rewrite run_cap, run_cat, run_lit, run_cat, run_lit;
       take_all Hauth; rewrite run_cat
     | ]).
  - take_end Hp. rewrite run_cat.
    rewrite run_maybe_skip by reflexivity.
    rewrite run_maybe_skip by reflexivity.
    reflexivity.
  - repeat split; reflexivity.
  - take_as ("/" :: p) Hp. rewrite run_cat.
    rewrite run_maybe_skip by reflexivity.
    apply run_maybe_take. rewrite run_cap, run_cat, run_lit.
    take_end Hf. reflexivity.
  - repeat split; reflexivity.
  - take_as ("/" :: p) Hp. rewrite run_cat.
    apply run_maybe_take. rewrite run_cap, run_cat, run_lit.
    take_end Hq.
    rewrite run_maybe_skip by reflexivity.
    reflexivity.
  - repeat split; reflexivity.
  - take_as ("/" :: p) Hp. rewrite run_cat.
    apply run_maybe_take. rewrite run_cap, run_cat, run_lit.
    take_as (cq :: q) Hq.
    apply run_maybe_take. rewrite run_cap, run_cat, run_lit.
    take_end Hf. reflexivity.
  - repeat split; reflexivity.
Qed.

(** ** The authority pattern on a host and a port *)

Ltac inv H := inversion H; subst; clear H.

Ltac inv_matches :=
  repeat match goal with
  | H : Matches (Cat _ _) _ _ _ _ _ |- _ => inv H
  | H : Matches (One _) _ _ _ _ _ |- _ => inv H
  | H : Matches (Many _ _ _) _ _ _ _ _ |- _ => inv H
  | H : Matches (Cap _ _) _ _ _ _ _ |- _ => inv H
  | H : Matches Bol _ _ _ _ _ |- _ => inv H
  | H : Matches Eol _ _ _ _ _ |- _ => inv H
  | H : Matches (Maybe _) _ _ _ _ _ |- _ => inv H
  | H : Matches (Or _ _) _ _ _ _ _ |- _ => inv H
  end.

Lemma lit_char a c : accepts (Lit a) c = true -> c = a.
Proof. simpl. apply Ascii.eqb_eq. Qed.

Lemma userinfo_needs_at n w rest m m' :
  Matches userinfo_re n w rest m m' -> In "@" w.
Proof.
  unfold userinfo_re, lit, star. intros H. inv_matches.
  all: repeat match goal with H : accepts (Lit _) _ = true |- _ =>
         apply lit_char in H; subst end.
  all: rewrite ?in_app_iff; simpl; tauto.
Qed.

Lemma userinfo_fails {A : Type} n s m (k : cursor -> smatch -> option A) :
  ~ In "@" s -> run userinfo_re (n, s) m k = None.
Proof.
  intros Hno. destruct (run userinfo_re (n, s) m k) as [x|] eqn:E; [|reflexivity].
  apply run_sound in E as (w & rest & m' & -> & H & _).
  apply userinfo_needs_at in H. exfalso. apply Hno, in_or_app. left. exact H.
Qed.

Lemma host_re_shape n w rest m m' :
  Matches (Or bracket_host_re plain_host_re) n w rest m m' ->
  host_shape w /\ m' = m.
Proof.
  unfold bracket_host_re, plain_host_re, lit, plus. intros H. inv_matches.
  - split; [|reflexivity]. left.
    repeat match goal with H : accepts (Lit _) _ = true |- _ =>
      apply lit_char in H; subst end.
    simpl. eauto.
  - split; [|reflexivity]. right. split; [|assumption].
    destruct w; [simpl in *; lia|congruence].
Qed.

Lemma run_one {A : Type} a c n s m (k : cursor -> smatch -> option A) :
  accepts a c = true -> run (One a) (n, c :: s) m k = k (S n, s) m.
Proof. intros H. cbn. rewrite H. reflexivity. Qed.

Lemma run_many {A : Type} a lo hi n s m (k : cursor -> smatch -> option A) :
  run (Many a lo hi) (n, s) m k = many a lo hi n s (fun st' => k st' m).
Proof. reflexivity. Qed.

Lemma port_tail n d s m :
  d = [] \/ port_digits d ->
  run (Maybe port_re ;; Eol)%re (n, port_text d) m (whole s)
  = Some (set_group 0 s (match d with _ :: _ => set_group 4 d m | [] => m end)).
Proof.
  intros [->|[Hd Hlen]]; [reflexivity|].
  destruct d as [|c d]; [simpl in Hlen; lia|]. cbn [port_text].
  rewrite run_cat. apply run_maybe_take. unfold port_re.
  rewrite run_cat, run_lit. apply cap_many_greedy_end.
  - exact Hd.
  - lia.
  - exact (proj2 Hlen).
  - reflexivity.
Qed.

Lemma split_at_colon (h1 h2 t1 t2 : text) :
  none_of ":" h1 -> none_of ":" h2 ->
  (t1 = [] \/ exists r, t1 = ":" :: r) ->
  (t2 = [] \/ exists r, t2 = ":" :: r) ->
  h1 ++ t1 = h2 ++ t2 -> h1 = h2 /\ t1 = t2.
Proof.
  assert (Hhead : forall c (h t r : text),
             none_of ":" (c :: h) -> (t = [] \/ exists r, t = ":" :: r) ->
             t <> c :: r).
  { intros c h t r Hc [->|[r' ->]]; [discriminate|].
    intros E. inversion E; subst c. inversion Hc as [|? ? Hx _]. discriminate Hx. }
  revert h2. induction h1 as [|c h1 IH]; intros h2 H1 H2 Ht1 Ht2 E.
  - destruct h2 as [|c2 h2]; [auto|]. exfalso. simpl in E.
    exact (Hhead _ _ _ _ H2 Ht1 E).
  - destruct h2 as [|c2 h2].
    + exfalso. simpl in E. symmetry in E. exact (Hhead _ _ _ _ H1 Ht2 E).
    + simpl in E. injection E as Ec Et. subst c2.
      inversion H1 as [|? ? _ H1']. inversion H2 as [|? ? _ H2']. subst.
      destruct (IH h2 H1' H2' Ht1 Ht2 Et) as [-> ->]. auto.
Qed.

Lemma digit_not_at (d : text) :
  Forall (fun c => accepts Digit c = true) d -> ~ In "@" d.
Proof.
  induction 1 as [|c d Hc Hd IH]; simpl; [tauto|].
  intros [->|H]; [discriminate Hc|tauto].
Qed.

Lemma bracket_host_forward {A : Type} c bs pt n m
    (K : cursor -> smatch -> option A) x :
  (1 <= List.length bs)%nat ->
  Forall (fun c => accepts (Lit "]") c = true) bs ->
  (pt = [] \/ exists r, pt = ":" :: r) ->
  K (S (S (S n) + List.length bs), pt) m = Some x ->
  run bracket_host_re (n, ("[" :: c :: bs ++ ["]"]) ++ pt) m K = Some x.
Proof.
  intros Hlen Hbs Hpt HK. unfold bracket_host_re. cbn [app].
  rewrite run_cat, run_lit, run_cat, run_one by reflexivity.
  rewrite run_cat. unfold plus. rewrite run_many.
  apply many_back_one.
  - apply Forall_app. split; [exact Hbs|]. constructor; [reflexivity|constructor].
  - destruct Hpt as [->|[r ->]]; [apply stops_nil|apply stops_cons; reflexivity].
  - exact Hlen.
  - exact I.
  - destruct Hpt as [->|[r ->]]; reflexivity.
  - rewrite run_lit. exact HK.
Qed.

Lemma plain_host_forward {A : Type} h pt n m
    (K : cursor -> smatch -> option A) x :
  h <> [] -> none_of ":" h ->
  (pt = [] \/ exists r, pt = ":" :: r) ->
  K ((n + List.length h)%nat, pt) m = Some x ->
  run plain_host_re (n, h ++ pt) m K = Some x.
Proof.
  intros Hne Hplain Hpt HK. unfold plain_host_re, plus. rewrite run_many.
  apply many_greedy; auto.
  - destruct Hpt as [->|[r ->]]; [apply stops_nil|apply stops_cons; reflexivity].
  - destruct h; [congruence|simpl; lia].
  - exact I.
Qed.

Lemma authority_regex_canonical (h d : text) :
  host_shape h -> ~ In "@" h -> d = [] \/ port_digits d ->
  exists am,
    regex_match (h ++ port_text d) authority_regex = Some am
    /\ sub am 3 = h /\ sub am 4 = d.
Proof.
  intros Hh Hat Hd.
  set (s := h ++ port_text d).
  set (X := set_group 0 s
              (match d with
               | _ :: _ => set_group 4 d (set_group 3 h no_match)
               | [] => set_group 3 h no_match
               end)).
  assert (HX : sub X 3 = h /\ sub X 4 = d) by (destruct d; split; reflexivity).
  exists X. split; [|exact HX]. clear HX.
  assert (Hnoat : ~ In "@" s).
  { subst s. rewrite in_app_iff. intros [H|H]; [tauto|].
    destruct Hd as [->|[Hd _]]; [exact H|].
    destruct d; [exact H|]. destruct H as [H|H]; [discriminate H|].
    revert H. apply digit_not_at. exact Hd. }
  unfold regex_match. fold (whole s).
  change authority_regex
    with (Bol ;; Maybe userinfo_re ;; Cap 3 (Or bracket_host_re plain_host_re)
          ;; Maybe port_re ;; Eol)%re.
  rewrite run_cat, run_bol, run_cat.
  rewrite run_maybe_skip by (apply userinfo_fails; exact Hnoat).
  rewrite run_cat, run_cap.
  set (K3 := fun (st' : cursor) (m' : smatch) =>
               run (Maybe port_re;; Eol)%re st'
                 (set_group 3 (firstn (fst st' - 0) s) m') (whole s)).
  assert (HK : forall n, n = List.length h -> K3 (n, port_text d) no_match = Some X).
  { intros n ->. subst K3. cbv beta. cbn [fst]. rewrite Nat.sub_0_r.
    subst s. rewrite firstn_length_app. rewrite port_tail by exact Hd.
    subst X. destruct d; reflexivity. }
  assert (Hpt : port_text d = [] \/ exists r, port_text d = ":" :: r).
  { destruct d; [left|right; eexists]; reflexivity. }
  destruct Hh as [(c & bs & Eh & Hlen & Hbs)|[Hne Hplain]].
  - apply run_or_left.
    change (run bracket_host_re (0%nat, h ++ port_text d) no_match K3 = Some X).
    rewrite Eh at 1. apply bracket_host_forward; auto.
    apply HK. rewrite Eh. simpl. rewrite length_app. simpl. lia.
  - destruct (run bracket_host_re (0%nat, s) no_match K3) as [x|] eqn:E1.
    + rewrite (run_or_left _ _ _ _ _ x E1). f_equal.
      apply run_sound in E1 as (w & rest & m' & Es & Hw & Hk).
      subst K3. cbv beta in Hk. cbn [fst] in Hk.
      apply run_sound in Hk as (w2 & rest2 & m2 & -> & Hw2 & Hk2).
      unfold whole in Hk2. cbn [snd] in Hk2.
      destruct rest2; [|discriminate Hk2]. inversion Hk2; subst x. clear Hk2.
      rewrite app_nil_r in *.
      destruct (host_re_shape _ _ _ _ _ (M_OrL _ plain_host_re _ _ _ _ _ Hw))
        as [_ ->].
      unfold bracket_host_re, port_re, lit, plus in Hw, Hw2.
      assert (Hw2' : (w2 = [] /\ m2 = set_group 3 (firstn (0 + List.length w - 0) s) no_match)
                     \/ exists d', w2 = ":" :: d' /\ port_digits d'
                          /\ m2 = set_group 4 d' (set_group 3 (firstn (0 + List.length w - 0) s) no_match)).
      { clear Hw. inv_matches.
        - right. apply lit_char in H0. subst.
          rewrite !app_nil_r. simpl. eexists. split; [reflexivity|].
          split; [split; auto|reflexivity].
        - left. auto. }
      assert (Hbr : exists c bs, w = "[" :: c :: bs ++ ["]"]
                      /\ (1 <= List.length bs)%nat
                      /\ Forall (fun c => accepts (Lit "]") c = true) bs).
      { clear Hw2 Hw2'. inv_matches.
        repeat match goal with H : accepts (Lit _) _ = true |- _ =>
          apply lit_char in H; subst end.
        simpl. eauto. }
      destruct Hbr as (c & bs & Ew & Hlen & Hbs).
      assert (Hwplain : none_of ":" w).
      { subst w. unfold none_of. constructor; [reflexivity|].
        assert (Hbs' : none_of ":" (bs ++ ["]"])).
        { apply Forall_app. split.
          - eapply Forall_impl; [|exact Hbs]. intros a Ha.
            apply lit_char in Ha. subst a. reflexivity.
          - constructor; [reflexivity|constructor]. }
        constructor; [|exact Hbs'].
        destruct (accepts (NoneOf (str ":")) c) eqn:Ec; [reflexivity|exfalso].
        assert (c = ":") as ->.
        { simpl in Ec. destruct (Ascii.eqb_spec c ":"); [assumption|discriminate Ec]. }
        destruct h as [|h0 h]; [congruence|].
        unfold s in Es. simpl in Es. injection Es as _ Es.
        inversion Hplain as [|? ? _ Hh]. subst.
        destruct h as [|h1 h].
        - destruct d as [|d0 d]; [discriminate Es|].
          simpl in Es. injection Es as Es.
          destruct bs as [|b0 bs]; [simpl in Hlen; lia|].
          simpl in Es. injection Es as Eb _.
          inversion Hbs as [|? ? Hb0 _]. apply lit_char in Hb0.
          destruct Hd as [Hd|[Hd _]]; [discriminate Hd|].
          inversion Hd as [|? ? Hd0 _]. subst. discriminate Hd0.
        - simpl in Es. injection Es as Eh1 _. inversion Hh as [|? ? Hh1 _].
          subst. discriminate Hh1. }
      assert (Hw2t : w2 = [] \/ exists r, w2 = ":" :: r).
      { destruct Hw2' as [[-> _]|(d' & -> & _)]; eauto. }
      destruct (split_at_colon h w (port_text d) w2 Hplain Hwplain Hpt Hw2t Es)
        as [Ehw Ept].
      subst X. f_equal.
      replace (0 + List.length w - 0)%nat with (List.length h) in Hw2'
        by (rewrite Ehw; lia).
      unfold s in Hw2'. rewrite firstn_length_app in Hw2'.
      destruct Hw2' as [[-> ->]|(d' & -> & _ & ->)].
      * destruct d; [reflexivity|discriminate Ept].
      * destruct d; [discriminate Ept|]. inversion Ept. reflexivity.
    + rewrite run_or_right by exact E1.
      change (run plain_host_re (0%nat, h ++ port_text d) no_match K3 = Some X).
      apply plain_host_forward; auto.
Qed.

(** ** What the groups capture *)

Lemma Matches_sets r n w rest m m' :
  Matches r n w rest m m' ->
  forall i, (sets_group i r = true -> m' i <> None)
            /\ (m i <> None -> m' i <> None).
Proof.
  induction 1; intros j; cbn [sets_group]; try (split; [discriminate|auto]).
  - destruct (IHMatches1 j) as [A1 B1]. destruct (IHMatches2 j) as [A2 B2].
    split; [|auto]. intros Hs. apply orb_true_iff in Hs as [Hs|Hs]; auto.
  - destruct (IHMatches j) as [A1 B1]. split; [|auto].
    intros Hs. apply andb_true_iff in Hs as [Hs _]. auto.
  - destruct (IHMatches j) as [A1 B1]. split; [|auto].
    intros Hs. apply andb_true_iff in Hs as [_ Hs]. auto.
  - apply (IHMatches j).
  - destruct (IHMatches j) as [A1 B1]. unfold set_group.
    destruct (Nat.eqb_spec j i) as [->|Hne].
    + split; discriminate.
    + rewrite (proj2 (Nat.eqb_neq i j)) by congruence. simpl. auto.
Qed.

Lemma url_regex_caps : caps_ok url_group url_regex.
Proof.
  unfold url_regex, star, plus, lit. cbn [caps_ok url_group].
  repeat split; intros; try exact I; inv_matches; assumption.
Qed.

Lemma authority_regex_caps : caps_ok authority_group authority_regex.
Proof.
  change authority_regex
    with (Bol ;; Maybe userinfo_re ;; Cap 3 (Or bracket_host_re plain_host_re)
          ;; Maybe port_re ;; Eol)%re.
  unfold userinfo_re, port_re, star, lit. cbn [caps_ok authority_group].
  repeat split; intros; try exact I.
  - eapply host_re_shape. eassumption.
  - inv_matches. assumption.
  - inv_matches. assumption.
  - inv_matches. assumption.
Qed.

Lemma sub_set_group_0 s m i : i <> 0%nat -> sub (set_group 0 s m) i = sub m i.
Proof.
  intros H. unfold sub, set_group.
  rewrite (proj2 (Nat.eqb_neq i 0)) by exact H. reflexivity.
Qed.

Lemma url_regex_groups (s : text) (m : smatch) (i : nat) :
  regex_match s url_regex = Some m -> i <> 0%nat -> url_group i (sub m i).
Proof.
  intros H Hi. apply regex_match_sound in H as (m' & H & ->).
  rewrite sub_set_group_0 by exact Hi. unfold sub.
  destruct (m' i) as [v|] eqn:E.
  - eapply (Matches_caps_ok url_group); eauto using url_regex_caps.
    discriminate.
  - destruct i as [|[|[|[|[|[|[|[|[|[|i]]]]]]]]]]; simpl; try exact I; constructor.
Qed.

Lemma Forall_infix {X : Type} (P : X -> Prop) (a v b : list X) :
  Forall P (a ++ v ++ b) -> Forall P v.
Proof.
  intros H. apply Forall_app in H as [_ H]. apply Forall_app in H as [H _].
  exact H.
Qed.

Lemma authority_regex_groups (a : text) (am : smatch) :
  regex_match a authority_regex = Some am ->
  host_shape (sub am 3)
  /\ (sub am 4 = [] \/ port_digits (sub am 4))
  /\ forall cs, none_of cs a -> none_of cs (sub am 3).
Proof.
  intros H. apply regex_match_sound in H as (m' & H & ->).
  rewrite !sub_set_group_0 by discriminate.
  pose proof (Matches_caps_ok authority_group _ _ _ _ _ _ H authority_regex_caps)
    as Hcaps.
  assert (Hnone : forall i v, no_match i = Some v -> authority_group i v)
    by discriminate.
  specialize (Hcaps Hnone).
  destruct (Matches_sets _ _ _ _ _ _ H 3%nat) as [Hset _].
  specialize (Hset eq_refl). unfold sub.
  destruct (m' 3%nat) as [h|] eqn:E3; [|congruence].
  split; [exact (Hcaps 3%nat h E3)|]. split.
  - destruct (m' 4%nat) as [d|] eqn:E4; [right|left; reflexivity].
    exact (Hcaps 4%nat d E4).
  - intros cs Ha. destruct (Matches_infix _ _ _ _ _ _ H _ _ E3)
      as [Hn|(x & y & ->)]; [discriminate Hn|].
    eapply Forall_infix. exact Ha.
Qed.

Lemma tolower_idem (c : ascii) : tolower (tolower c) = tolower c.
Proof. destruct c as [[] [] [] [] [] [] [] []]; reflexivity. Qed.

Lemma tolower_delims (c : ascii) :
  accepts (NoneOf (str ":/?#")) c = true ->
  accepts (NoneOf (str ":/?#")) (tolower c) = true.
Proof.
  destruct c as [[] [] [] [] [] [] [] []]; intros H; try exact H; reflexivity.
Qed.

Lemma lowercase_idem (s : text) : lowercase (lowercase s) = lowercase s.
Proof.
  unfold lowercase. rewrite map_map. apply map_ext. apply tolower_idem.
Qed.

Lemma lowercase_delims (s : text) : none_of ":/?#" s -> none_of ":/?#" (lowercase s).
Proof.
  unfold none_of, lowercase. intros H. apply Forall_map.
  eapply Forall_impl; [|exact H]. apply tolower_delims.
Qed.

Lemma find_port_range (sch : text) (p : Z) :
  find_port sch = Some p -> 0 < p < 65536.
Proof.
  unfold find_port, default_ports. cbn [find fst snd].
  repeat match goal with
  | |- context [text_eqb ?a ?b] => destruct (text_eqb a b)
  end; intros H; inversion H; lia.
Qed.

Lemma authority_port_range (sch port_str : text) (p : Z) :
  authority_port sch port_str = inr p -> 0 <= p < 65536.
Proof.
  unfold authority_port. destruct port_str as [|c r].
  - destruct (find_port sch) as [d|] eqn:E; intros H; inversion H; subst.
    + apply find_port_range in E. lia.
    + lia.
  - destruct (stoi (c :: r)) as [e|v]; [discriminate|].
    rewrite range_check_never_fires. intros H; inversion H.
    apply to_uint16_range.
Qed.

Lemma URLImpl_new_well_formed (url : text) (i : URLImpl) :
  URLImpl_new url = inr i -> well_formed i.
Proof.
  unfold URLImpl_new, parse_authority.
  destruct (regex_match url url_regex) as [m|] eqn:Hm; [|discriminate].
  pose proof (fun j => url_regex_groups url m j Hm) as G.
  pose proof (G 2%nat ltac:(discriminate)) as G2.
  pose proof (G 4%nat ltac:(discriminate)) as G4.
  pose proof (G 5%nat ltac:(discriminate)) as G5.
  pose proof (G 7%nat ltac:(discriminate)) as G7.
  pose proof (G 9%nat ltac:(discriminate)) as G9.
  cbn [url_group] in *. clear G.
  assert (Hpath : none_of "?#"
                    (if (0 <? List.length (sub m 5))%nat then sub m 5 else str "/")).
  { destruct (0 <? List.length (sub m 5))%nat; [exact G5|].
    constructor; [reflexivity|constructor]. }
  destruct (sub m 4) as [|c r] eqn:E4.
  - intros H; inversion H; subst i. clear H.
    constructor; cbn [scheme host port path query fragment]; auto.
    + apply lowercase_delims. exact G2.
    + apply lowercase_idem.
    + lia.
  - destruct (regex_match (c :: r) authority_regex) as [am|] eqn:Ham;
      [|discriminate].
    destruct (authority_port (lowercase (sub m 2)) (sub am 4)) as [e|p] eqn:Hp;
      [discriminate|].
    intros H; inversion H; subst i. clear H.
    destruct (authority_regex_groups _ _ Ham) as (Hh & _ & Hsub).
    constructor; cbn [scheme host port path query fragment]; auto.
    + apply lowercase_delims. exact G2.
    + apply lowercase_idem.
    + eapply authority_port_range. exact Hp.
Qed.

Lemma decimal_ok_from_spec (count : nat) :
  forall n k, decimal_ok_from count n = true ->
    n <= k < n + Z.of_nat count -> decimal_ok k = true.
Proof.
  induction count as [|count IH]; intros n k H Hk; [lia|].
  cbn [decimal_ok_from] in H. apply andb_true_iff in H as [H0 H1].
  destruct (Z.eq_dec k n) as [->|Hne]; [exact H0|].
  apply (IH (n + 1)); [exact H1|lia].
Qed.

Lemma decimal_ok_ports : decimal_ok_from (Z.to_nat 65535) 1 = true.
Proof. vm_compute. reflexivity. Qed.

Lemma to_decimal_stoi (p : Z) :
  0 < p < 65536 ->
  stoi (to_decimal p) = inr p /\ port_digits (to_decimal p).
Proof.
  intros Hp.
  assert (H : decimal_ok p = true).
  { apply (decimal_ok_from_spec _ _ _ decimal_ok_ports). lia. }
  unfold decimal_ok in H. cbv zeta in H.
  apply andb_true_iff in H as [H H5]. apply andb_true_iff in H as [H H1].
  apply andb_true_iff in H as [H Hd].
  split.
  - destruct (stoi (to_decimal p)) as [e|v]; [discriminate H|].
    apply Z.eqb_eq in H. congruence.
  - split.
    + apply Forall_forall. intros c Hc.
      exact (proj1 (forallb_forall _ _) Hd c Hc).
    + apply Nat.leb_le in H1, H5. lia.
Qed.

Lemma digit_not_delim (c : ascii) :
  accepts Digit c = true -> accepts (NoneOf (str "/?#")) c = true.
Proof.
  destruct c as [[] [] [] [] [] [] [] []]; intros H; try exact H; reflexivity.
Qed.

Lemma port_text_delims (d : text) :
  d = [] \/ port_digits d -> none_of "/?#" (port_text d).
Proof.
  intros [->|[Hd _]]; [constructor|].
  destruct d; [constructor|]. constructor; [reflexivity|].
  eapply Forall_impl; [|exact Hd]. apply digit_not_delim.
Qed.

Lemma shown_digits_cases (sch : text) (p : Z) :
  0 <= p < 65536 ->
  (shown_digits sch p = [] /\ (p = 0 \/ find_port sch = Some p))
  \/ (shown_digits sch p = to_decimal p /\ 0 < p
      /\ find_port sch <> Some p /\ port_digits (to_decimal p)).
Proof.
  intros Hp. unfold shown_digits. destruct (Z.eqb_spec p 0) as [E|E]; simpl.
  - left. auto.
  - assert (Hpos : 0 < p < 65536) by lia.
    destruct (to_decimal_stoi p Hpos) as [_ Hd].
    destruct (find_port sch) as [d|].
    + destruct (Z.eqb_spec d p) as [E'|E']; simpl.
      * left. subst d. auto.
      * right. split; [reflexivity|]. split; [lia|]. split; [congruence|exact Hd].
    + right. split; [reflexivity|]. split; [lia|]. split; [discriminate|exact Hd].
Qed.

Lemma to_string_layout (u : URL) :
  0 <= port (impl_ u) < 65536 ->
  to_string u
  = scheme (impl_ u) ++ str "://"
    ++ (host (impl_ u) ++ port_text (shown_digits (scheme (impl_ u)) (port (impl_ u))))
    ++ path (impl_ u) ++ query_segment (query (impl_ u))
    ++ fragment_segment (fragment (impl_ u)).
Proof.
  destruct u as [[sch hst p pth q f qp qpp]]. simpl impl_.
  cbn [scheme host port path query fragment]. intros Hp.
  unfold to_string. simpl impl_. cbn [scheme host port path query fragment].
  assert (Hseg : port_text (shown_digits sch p)
                 = if negb (p =? 0) then
                     match find_port sch with
                     | None => str ":" ++ to_decimal p
                     | Some d => if negb (d =? p) then str ":" ++ to_decimal p else []
                     end
                   else []).
  { unfold shown_digits. destruct (Z.eqb_spec p 0) as [E|E]; simpl; [reflexivity|].
    assert (Hpt : port_text (to_decimal p) = str ":" ++ to_decimal p).
    { destruct (to_decimal_stoi p ltac:(lia)) as [_ [_ Hlen]].
      destruct (to_decimal p); [simpl in Hlen; lia|reflexivity]. }
    destruct (find_port sch) as [d|]; [destruct (negb (d =? p))|]; auto. }
  rewrite Hseg. unfold query_segment, fragment_segment.
  destruct (negb (p =? 0)); [destruct (find_port sch) as [d|];
    [destruct (negb (d =? p))|]|]; destruct q; destruct f;
    rewrite <- ?app_assoc, ?app_nil_r; reflexivity.
Qed.

Lemma reparsed_port (sch : text) (p : Z) :
  0 <= p < 65536 ->
  exists p', authority_port sch (shown_digits sch p) = inr p'
    /\ 0 <= p' < 65536
    /\ shown_digits sch p' = shown_digits sch p.
Proof.
  intros Hp.
  destruct (shown_digits_cases sch p Hp) as [[E Hcase]|(E & Hpos & Hfind & Hd)].
  - rewrite E. unfold authority_port.
    destruct (find_port sch) as [d|] eqn:Ef.
    + exists d. pose proof (find_port_range _ _ Ef).
      split; [reflexivity|]. split; [lia|].
      unfold shown_digits. rewrite Ef, Z.eqb_refl.
      destruct (negb (d =? 0)); reflexivity.
    + exists 0. split; [reflexivity|]. split; [lia|].
      destruct Hcase as [->|Hc]; [exact E|discriminate Hc].
  - exists p. rewrite E.
    destruct (to_decimal_stoi p ltac:(lia)) as [Hstoi _].
    rewrite (authority_port_explicit _ _ _ Hstoi).
    unfold to_uint16. rewrite Z.mod_small by lia.
    split; [reflexivity|]. split; [lia|reflexivity].
Qed.

Lemma parse_authority_canonical (sch h d : text) :
  host_shape h -> ~ In "@" h -> d = [] \/ port_digits d ->
  parse_authority sch (h ++ port_text d)
  = match authority_port sch d with
    | inl e => inl e
    | inr p => inr (h, p)
    end.
Proof.
  intros Hh Hat Hd.
  destruct (authority_regex_canonical h d Hh Hat Hd) as (am & Ham & E3 & E4).
  unfold parse_authority. rewrite Ham, E3, E4.
  destruct h as [|c r]; [|reflexivity].
  exfalso. destruct Hh as [(x & bs & E & _)|[Hne _]]; congruence.
Qed.

Lemma roundtrip_well_formed (u : URL) :
  well_formed (impl_ u) ->
  scheme (impl_ u) <> [] ->
  (exists p, path (impl_ u) = "/" :: p) ->
  ~ In "@" (host (impl_ u)) ->
  exists v, parse (to_string u) = inr (Some v)
    /\ to_string v = to_string u
    /\ scheme (impl_ v) = scheme (impl_ u)
    /\ host (impl_ v) = host (impl_ u)
    /\ path (impl_ v) = path (impl_ u)
    /\ query (impl_ v) = query (impl_ u)
    /\ fragment (impl_ v) = fragment (impl_ u).
Proof.
  destruct u as [[sch hst p pth q f qp qpp]]. simpl impl_.
  intros [Hsch Hlow Hhost Hport Hpath Hquery Hfrag].
  cbn [scheme host port path query fragment] in *.
  intros Hne [p0 ->] Hat.
  set (u := mkURL (mkURLImpl sch hst p ("/" :: p0) q f qp qpp)).
  pose proof (to_string_layout u Hport) as Hu.
  simpl impl_ in Hu. cbn [scheme host port path query fragment] in Hu.
  assert (Hd : shown_digits sch p = [] \/ port_digits (shown_digits sch p)).
  { destruct (shown_digits_cases sch p Hport) as [[E _]|(E & _ & _ & Hd)];
      [left; exact E|right; rewrite E; exact Hd]. }
  destruct (reparsed_port sch p Hport) as (p' & Hp' & Hrange & Hshown).
  assert (Hauth : parse_authority sch (hst ++ port_text (shown_digits sch p))
                  = inr (hst, if (List.length hst =? 0)%nat then 0 else p')).
  { destruct Hhost as [[-> ->]|[Hshape _]].
    - reflexivity.
    - rewrite parse_authority_canonical by assumption. rewrite Hp'.
      destruct hst; [|reflexivity].
      exfalso. destruct Hshape as [(x & bs & E & _)|[Hn _]]; congruence. }
  destruct (url_regex_canonical sch (hst ++ port_text (shown_digits sch p))
              p0 q f Hne Hsch) as (m & Hm & E2 & E4 & E5 & E7 & E9); auto.
  { apply Forall_app. split; [|apply port_text_delims; exact Hd].
    destruct Hhost as [[-> _]|[_ H]]; [constructor|exact H]. }
  rewrite Hu. unfold parse, URLImpl_new.
  rewrite Hm, E2, E4, E5, E7, E9, Hlow, Hauth. cbn [List.length Nat.ltb Nat.leb].
  eexists. split; [reflexivity|].
  split; [|repeat split].
  rewrite to_string_layout; simpl impl_;
    cbn [scheme host port path query fragment].
  - f_equal. f_equal. f_equal. f_equal.
    destruct Hhost as [[-> ->]|[Hshape _]]; [reflexivity|].
    destruct hst; [|simpl; rewrite Hshown; reflexivity].
    exfalso. destruct Hshape as [(x & bs & E & _)|[Hn _]]; congruence.
  - destruct (List.length hst =? 0)%nat; lia.
Qed.

(** C1, amended.  For every input [s] that [parse] accepts with a value [u]
    whose scheme is not empty, whose path begins with [/] and whose host
    contains no [@], [parse(u.to_string())] succeeds and yields a value [v]
    with [v.to_string()] equal to [u.to_string()]. *)
Theorem roundtrip_stable (s : text) (u : URL) :
  parse s = inr (Some u) ->
  scheme (impl_ u) <> [] ->
  (exists p, path (impl_ u) = "/" :: p) ->
  ~ In "@" (host (impl_ u)) ->
  exists v, parse (to_string u) = inr (Some v) /\ to_string v = to_string u.
Proof.
  intros Hparse Hne Hpath Hat.
  assert (Hwf : well_formed (impl_ u)).
  { unfold parse in Hparse.
    destruct (URLImpl_new s) as [e|i] eqn:E.
    - destruct e; discriminate Hparse.
    - inversion Hparse; subst u. simpl. eapply URLImpl_new_well_formed. exact E. }
  destruct (roundtrip_well_formed u Hwf Hne Hpath Hat) as (v & Hv & Hs & _).
  exists v. auto.
Qed.

Lemma roundtrip_stable_witness :
  let s := str "https://example.com:8080/path?query#fragment" in
  let u := url_of "https" "example.com" 8080 "/path" "query" "fragment" in
  parse s = inr (Some u)
  /\ scheme (impl_ u) <> []
  /\ (exists p, path (impl_ u) = "/" :: p)
  /\ ~ In "@" (host (impl_ u))
  /\ exists v, parse (to_string u) = inr (Some v) /\ to_string v = to_string u.
Proof.
  intros s u.
  assert (H1 : parse s = inr (Some u)) by (vm_compute; reflexivity).
  assert (H2 : scheme (impl_ u) <> []) by discriminate.
  assert (H3 : exists p, path (impl_ u) = "/" :: p) by (eexists; reflexivity).
  assert (H4 : ~ In "@" (host (impl_ u))).
  { cbv [In str list_ascii_of_string host impl_ url_of u]. intuition discriminate. }
  repeat split; auto. exact (roundtrip_stable s u H1 H2 H3 H4).
Defined.

(** C1, as stated, fails.
    - [mailto:user@example.com] is accepted with scheme [mailto], no host and
      path [user@example.com]; its canonical text [mailto://user@example.com]
      is accepted with host [example.com] and path [/], whose canonical text
      is [mailto://example.com/].
    - [http:foo:bar] is accepted, but its canonical text [http://foo:bar] is
      not.
    - [//example.com/] is accepted with an empty scheme; its canonical text
      starts with a colon and is read back as a path.
    - [http://a@b@c/] is accepted with host [b@c]; the canonical text
      [http://b@c/] is read back with host [c]. *)
Lemma roundtrip_unstable_inputs :
  (exists u v,
     parse (str "mailto:user@example.com") = inr (Some u)
     /\ to_string u = str "mailto://user@example.com"
     /\ parse (to_string u) = inr (Some v)
     /\ to_string v = str "mailto://example.com/"
     /\ to_string v <> to_string u)
  /\ (exists u,
        parse (str "http:foo:bar") = inr (Some u)
        /\ to_string u = str "http://foo:bar"
        /\ parse (to_string u) = inr None)
  /\ (exists u v,
        parse (str "//example.com/") = inr (Some u)
        /\ to_string u = str "://example.com/"
        /\ parse (to_string u) = inr (Some v)
        /\ to_string v = str "://://example.com/")
  /\ (exists u v,
        parse (str "http://a@b@c/") = inr (Some u)
        /\ to_string u = str "http://b@c/"
        /\ parse (to_string u) = inr (Some v)
        /\ to_string v = str "http://c/").
Proof.
  split; [|split; [|split]].
  - exists (url_of "mailto" "" 0 "user@example.com" "" ""),
           (url_of "mailto" "example.com" 0 "/" "" "").
    repeat split; try (vm_compute; reflexivity).
    vm_compute. discriminate.
  - exists (url_of "http" "" 0 "foo:bar" "" "").
    repeat split; vm_compute; reflexivity.
  - exists (url_of "" "example.com" 0 "/" "" ""),
           (url_of "" "" 0 "://example.com/" "" "").
    repeat split; vm_compute; reflexivity.
  - exists (url_of "http" "b@c" 80 "/" "" ""), (url_of "http" "c" 80 "/" "" "").
    repeat split; vm_compute; reflexivity.
Qed.

(** ** The port of the authority *)

Lemma digit_value_range (c : ascii) :
  isdigit c = true -> 0 <= digit_value c <= 9.
Proof.
  unfold isdigit, digit_value. intros H. apply andb_true_iff in H. lia.
Qed.

Lemma leading_digits_bound (s : text) :
  forall acc, 0 <= acc ->
    0 <= leading_digits s acc < (acc + 1) * 10 ^ Z.of_nat (List.length s).
Proof.
  induction s as [|c s IH]; intros acc Hacc.
  - simpl. lia.
  - cbn [leading_digits List.length]. rewrite Nat2Z.inj_succ, Z.pow_succ_r by lia.
    assert (Hpow : 0 < 10 ^ Z.of_nat (List.length s)) by (apply Z.pow_pos_nonneg; lia).
    destruct (isdigit c) eqn:Hc.
    + pose proof (digit_value_range c Hc) as Hd.
      specialize (IH (10 * acc + digit_value c) ltac:(lia)). nia.
    + nia.
Qed.

(** [std::stoi] does not throw on the texts the port group captures. *)
Lemma stoi_port_digits (d : text) :
  port_digits d -> exists v, stoi d = inr v /\ 0 <= v < 100000.
Proof.
  intros [Hd Hlen]. destruct d as [|c r]; [simpl in Hlen; lia|].
  inversion Hd as [|? ? Hc _]. subst. cbn [accepts] in Hc.
  pose proof (leading_digits_bound (c :: r) 0 ltac:(lia)) as Hb.
  assert (Hp : 10 ^ Z.of_nat (List.length (c :: r)) <= 10 ^ 5)
    by (apply Z.pow_le_mono_r; lia).
  exists (leading_digits (c :: r) 0). split; [|lia].
  assert (Hv : (INT_MIN <=? leading_digits (c :: r) 0)
               && (leading_digits (c :: r) 0 <=? INT_MAX) = true).
  { unfold INT_MIN, INT_MAX. apply andb_true_iff. split; apply Z.leb_le; lia. }
  unfold stoi.
  replace (skip_space (c :: r)) with (c :: r).
  2:{ cbn [skip_space]. destruct (isspace c) eqn:Hs; [|reflexivity].
      exfalso. revert Hc Hs. unfold isdigit, isspace.
      destruct (Z.leb_spec 48 (ascii_code c)); destruct (Z.eqb_spec (ascii_code c) 32);
        destruct (Z.leb_spec 9 (ascii_code c)); destruct (Z.leb_spec (ascii_code c) 13);
        simpl; intros; try discriminate; lia. }
  destruct c as [[] [] [] [] [] [] [] []]; try discriminate Hc;
    rewrite Hc; rewrite Hv; reflexivity.
Qed.

Lemma authority_port_total (sch : text) (port_str : text) :
  port_str = [] \/ port_digits port_str ->
  exists p, authority_port sch port_str = inr p.
Proof.
  intros [->|Hd].
  - unfold authority_port. destruct (find_port sch); eauto.
  - destruct (stoi_port_digits _ Hd) as (v & Hv & _).
    rewrite (authority_port_explicit _ _ _ Hv). eauto.
Qed.

(** The constructor never throws for the port: its failures are those of
    the two patterns. *)
Lemma URLImpl_new_failures (url : text) (e : exn) :
  URLImpl_new url = inl e -> e = Malformed \/ e = InvalidAuthority.
Proof.
  unfold URLImpl_new, parse_authority.
  destruct (regex_match url url_regex) as [m|]; [|intros H; inversion H; auto].
  destruct (sub m 4) as [|c r]; [discriminate|].
  destruct (regex_match (c :: r) authority_regex) as [am|] eqn:Ham;
    [|intros H; inversion H; auto].
  destruct (authority_regex_groups _ _ Ham) as (_ & Hd & _).
  destruct (authority_port_total (lowercase (sub m 2)) _ Hd) as [p ->].
  discriminate.
Qed.

(** C2.  The specification has a captured port outside [0, 65535] make the
    parse fail with InvalidPort, as for [http://example.com:99999/].  The code
    narrows the number to 16 bits before it compares it with 65535, so the
    comparison is never true: the parse succeeds with port
    [99999 mod 65536 = 34463]; [validate] reports the input valid.  A port
    text of six digits such as [065536] is not captured at all: the authority
    pattern admits at most five digits and the failure is the authority's.
    No input at all makes the constructor fail for its port. *)
Theorem parse_port_99999_yields_a_value :
  parse (str "http://example.com:99999/")
    = inr (Some (url_of "http" "example.com" 34463 "/" "" ""))
  /\ validate (str "http://example.com:99999/")
    = inr (mkValidationResult true "")
  /\ URLImpl_new (str "http://example.com:065536/") = inl InvalidAuthority
  /\ (forall url e, URLImpl_new url = inl e -> e = Malformed \/ e = InvalidAuthority).
Proof.
  split; [vm_compute; reflexivity|].
  split; [vm_compute; reflexivity|].
  split; [vm_compute; reflexivity|].
  exact URLImpl_new_failures.
Qed.

(** * Further properties *)

Lemma stoi_port_value (d : text) :
  port_digits d -> stoi d = inr (leading_digits d 0).
Proof.
  intros [Hd Hlen]. destruct d as [|c r]; [simpl in Hlen; lia|].
  inversion Hd as [|? ? Hc _]. subst. cbn [accepts] in Hc.
  pose proof (leading_digits_bound (c :: r) 0 ltac:(lia)) as Hb.
  assert (Hp : 10 ^ Z.of_nat (List.length (c :: r)) <= 10 ^ 5)
    by (apply Z.pow_le_mono_r; lia).
  assert (Hv : (INT_MIN <=? leading_digits (c :: r) 0)
               && (leading_digits (c :: r) 0 <=? INT_MAX) = true).
  { unfold INT_MIN, INT_MAX. apply andb_true_iff. split; apply Z.leb_le; lia. }
  unfold stoi.
  replace (skip_space (c :: r)) with (c :: r).
  2:{ cbn [skip_space]. destruct (isspace c) eqn:Hs; [|reflexivity].
      exfalso. revert Hc Hs. unfold isdigit, isspace.
      destruct (Z.leb_spec 48 (ascii_code c)); destruct (Z.eqb_spec (ascii_code c) 32);
        destruct (Z.leb_spec 9 (ascii_code c)); destruct (Z.leb_spec (ascii_code c) 13);
        simpl; intros; try discriminate; lia. }
  destruct c as [[] [] [] [] [] [] [] []]; try discriminate Hc;
    rewrite Hc; rewrite Hv; reflexivity.
Qed.

Lemma authority_port_value (sch d : text) :
  d = [] \/ port_digits d -> authority_port sch d = inr (port_of sch d).
Proof.
  intros [->|Hd].
  - unfold authority_port, port_of. destruct (find_port sch); reflexivity.
  - rewrite (authority_port_explicit _ _ _ (stoi_port_value d Hd)).
    destruct Hd as [_ Hlen]. destruct d; [simpl in Hlen; lia|reflexivity].
Qed.

(** The outer pattern on a text without a path. *)
Lemma url_regex_canonical_no_path (sch auth q f : text) :
  sch <> [] -> none_of ":/?#" sch -> none_of "/?#" auth ->
  none_of "#" q ->
  Forall (fun c => accepts Dot c = true) f ->
  exists m,
    regex_match (sch ++ str "://" ++ auth ++ query_segment q
                   ++ fragment_segment f) url_regex = Some m
    /\ sub m 2 = sch /\ sub m 4 = auth /\ sub m 5 = []
    /\ sub m 7 = q /\ sub m 9 = f.
Proof.
  intros Hne Hsch Hauth Hq Hf.
  assert (Hlen : (1 <= List.length sch)%nat) by (destruct sch; [congruence|simpl; lia]).
  assert (Hnil : none_of "?#" []) by constructor.
  unfold regex_match, url_regex.
  destruct q as [|cq q]; destruct f as [|cf f];
    cbn [query_segment fragment_segment str list_ascii_of_string app];
    rewrite ?app_nil_r;
    (eexists; split;
     [ rewrite run_cat, run_bol, run_cat; apply run_maybe_take;
       rewrite run_cap, run_cat; take_all Hsch;
       rewrite run_lit, run_cat; apply run_maybe_take;
       rewrite run_cap, run_cat, run_lit, run_cat, run_lit
     | ]).
  - take_end Hauth. rewrite run_cat. take_end Hnil. rewrite run_cat.
    rewrite run_maybe_skip by reflexivity.
    rewrite run_maybe_skip by reflexivity.
    reflexivity.
  - repeat split; reflexivity.
  - take_all Hauth. rewrite run_cat. take_as (@nil ascii) Hnil. rewrite run_cat.
    rewrite run_maybe_skip by reflexivity.
    apply run_maybe_take. rewrite run_cap, run_cat, run_lit.
    take_end Hf. reflexivity.
  - repeat split; reflexivity.
  - take_all Hauth. rewrite run_cat. take_as (@nil ascii) Hnil. rewrite run_cat.
    apply run_maybe_take. rewrite run_cap, run_cat, run_lit.
    take_end Hq.
    rewrite run_maybe_skip by reflexivity.
    reflexivity.
  - repeat split; reflexivity.
  - take_all Hauth. rewrite run_cat. take_as (@nil ascii) Hnil. rewrite run_cat.
    apply run_maybe_take. rewrite run_cap, run_cat, run_lit.
    take_as (cq :: q) Hq.
    apply run_maybe_take. rewrite run_cap, run_cat, run_lit.
    take_end Hf. reflexivity.
  - repeat split; reflexivity.
Qed.

Lemma url_regex_rooted (sch auth pth q f : text) :
  sch <> [] -> none_of ":/?#" sch -> none_of "/?#" auth ->
  rooted pth -> none_of "?#" pth -> none_of "#" q ->
  Forall (fun c => accepts Dot c = true) f ->
  exists m,
    regex_match (sch ++ str "://" ++ auth ++ pth ++ query_segment q
                   ++ fragment_segment f) url_regex = Some m
    /\ sub m 2 = sch /\ sub m 4 = auth /\ sub m 5 = pth
    /\ sub m 7 = q /\ sub m 9 = f.
Proof.
  intros Hne Hsch Hauth [->|[r ->]] Hp Hq Hf.
  - apply url_regex_canonical_no_path; assumption.
  - apply url_regex_canonical; assumption.
Qed.

Lemma host_shape_nonempty (h : text) : host_shape h -> h <> [].
Proof. intros [(x & bs & -> & _)|[Hne _]]; [discriminate|exact Hne]. Qed.

Lemma path_of_length (p : text) :
  (if (0 <? List.length p)%nat then p else str "/") = path_of p.
Proof. destruct p; reflexivity. Qed.

Lemma URLImpl_new_components (sch h d pth q f : text) :
  sch <> [] -> none_of ":/?#" sch ->
  host_shape h -> ~ In "@" h -> none_of "/?#" h ->
  d = [] \/ port_digits d ->
  rooted pth -> none_of "?#" pth -> none_of "#" q ->
  Forall (fun c => accepts Dot c = true) f ->
  URLImpl_new (sch ++ str "://" ++ (h ++ port_text d) ++ pth ++ query_segment q
                 ++ fragment_segment f)
  = inr (mkURLImpl (lowercase sch) h (port_of (lowercase sch) d)
           (path_of pth) q f [] false).
Proof.
  intros Hne Hsch Hshape Hat Hh Hd Hroot Hpth Hq Hf.
  destruct (url_regex_rooted sch (h ++ port_text d) pth q f)
    as (m & Hm & E2 & E4 & E5 & E7 & E9); auto.
  { apply Forall_app. split; [exact Hh|apply port_text_delims; exact Hd]. }
  unfold URLImpl_new.
  rewrite Hm, E2, E4, E5, E7, E9, path_of_length.
  rewrite parse_authority_canonical by assumption.
  rewrite authority_port_value by assumption. reflexivity.
Qed.

(** X1.  A text [scheme://host[:port][path][?query][#fragment]] whose parts
    keep to their alphabets is accepted, and the value holds exactly these
    parts: the scheme lower-cased, the host, the path (or [/] when there is
    none), the query and the fragment.  The port is the number written,
    modulo 65536; without a port text it is the default port of the scheme,
    or 0 when the scheme has none. *)
Theorem parse_components (sch h d pth q f : text)
    (Hne : sch <> []) (Hsch : none_of ":/?#" sch)
    (Hshape : host_shape h) (Hat : ~ In "@" h) (Hh : none_of "/?#" h)
    (Hd : d = [] \/ port_digits d)
    (Hroot : rooted pth) (Hpth : none_of "?#" pth)
    (Hq : none_of "#" q)
    (Hf : Forall (fun c => accepts Dot c = true) f) :
  parse (sch ++ str "://" ++ (h ++ port_text d) ++ pth ++ query_segment q
           ++ fragment_segment f)
  = inr (Some (mkURL (mkURLImpl (lowercase sch) h (port_of (lowercase sch) d)
                        (path_of pth) q f [] false))).
Proof.
  unfold parse. rewrite URLImpl_new_components by assumption. reflexivity.
Qed.

Lemma parse_components_witness :
  let sch := str "HTTPS" in
  let h := str "example.com" in
  let d := str "8080" in
  let pth := str "/path" in
  let q := str "query" in
  let f := str "fragment" in
  sch <> [] /\ none_of ":/?#" sch /\ host_shape h /\ ~ In "@" h
  /\ none_of "/?#" h /\ (d = [] \/ port_digits d) /\ rooted pth
  /\ none_of "?#" pth /\ none_of "#" q
  /\ Forall (fun c => accepts Dot c = true) f
  /\ parse (str "HTTPS://example.com:8080/path?query#fragment")
     = inr (Some (url_of "https" "example.com" 8080 "/path" "query" "fragment")).
Proof.
  intros sch h d pth q f.
  assert (H1 : sch <> []) by discriminate.
  assert (H2 : none_of ":/?#" sch) by (repeat constructor).
  assert (H3 : host_shape h).
  { right. split; [discriminate|repeat constructor]. }
  assert (H4 : ~ In "@" h).
  { cbv [In str list_ascii_of_string h]. intuition discriminate. }
  assert (H5 : none_of "/?#" h) by (repeat constructor).
  assert (H6 : d = [] \/ port_digits d).
  { right. split; [repeat constructor|simpl; lia]. }
  assert (H7 : rooted pth) by (right; eexists; reflexivity).
  assert (H8 : none_of "?#" pth) by (repeat constructor).
  assert (H9 : none_of "#" q) by (repeat constructor).
  assert (H10 : Forall (fun c => accepts Dot c = true) f) by (repeat constructor).
  repeat (split; [assumption|]).
  exact (parse_components sch h d pth q f H1 H2 H3 H4 H5 H6 H7 H8 H9 H10).
Defined.

Lemma URLImpl_new_without_host (sch pth q f : text) :
  sch <> [] -> none_of ":/?#" sch ->
  rooted pth -> none_of "?#" pth -> none_of "#" q ->
  Forall (fun c => accepts Dot c = true) f ->
  URLImpl_new (sch ++ str "://" ++ pth ++ query_segment q ++ fragment_segment f)
  = inr (mkURLImpl (lowercase sch) [] 0 (path_of pth) q f [] false).
Proof.
  intros Hne Hsch Hroot Hpth Hq Hf.
  destruct (url_regex_rooted sch [] pth q f)
    as (m & Hm & E2 & E4 & E5 & E7 & E9); auto.
  { constructor. }
  unfold URLImpl_new. cbn [app] in Hm.
  rewrite Hm, E2, E4, E5, E7, E9, path_of_length. reflexivity.
Qed.

(** X2.  A text [scheme://[path][?query][#fragment]] with an empty authority
    is accepted with an empty host and port 0: the default-port table is
    consulted only when there is an authority. *)
Theorem parse_without_host (sch pth q f : text)
    (Hne : sch <> []) (Hsch : none_of ":/?#" sch)
    (Hroot : rooted pth) (Hpth : none_of "?#" pth)
    (Hq : none_of "#" q)
    (Hf : Forall (fun c => accepts Dot c = true) f) :
  parse (sch ++ str "://" ++ pth ++ query_segment q ++ fragment_segment f)
  = inr (Some (mkURL (mkURLImpl (lowercase sch) [] 0 (path_of pth) q f [] false))).
Proof.
  unfold parse. rewrite URLImpl_new_without_host by assumption. reflexivity.
Qed.

Lemma parse_without_host_witness :
  let sch := str "http" in
  let pth := str "/etc/hosts" in
  sch <> [] /\ none_of ":/?#" sch /\ rooted pth /\ none_of "?#" pth
  /\ none_of "#" [] /\ Forall (fun c => accepts Dot c = true) []
  /\ parse (str "http:///etc/hosts")
     = inr (Some (url_of "http" "" 0 "/etc/hosts" "" ""))
  /\ find_port (str "http") = Some 80.
Proof.
  intros sch pth.
  assert (H1 : sch <> []) by discriminate.
  assert (H2 : none_of ":/?#" sch) by (repeat constructor).
  assert (H3 : rooted pth) by (right; eexists; reflexivity).
  assert (H4 : none_of "?#" pth) by (repeat constructor).
  assert (H5 : none_of "#" []) by constructor.
  assert (H6 : Forall (fun c => accepts Dot c = true) []) by constructor.
  repeat (split; [assumption|]).
  split; [|reflexivity].
  exact (parse_without_host sch pth [] [] H1 H2 H3 H4 H5 H6).
Defined.

Lemma tolower_fixed_not_upper (c : ascii) : tolower c = c -> isupper c = false.
Proof.
  destruct c as [[] [] [] [] [] [] [] []]; intros H; try reflexivity;
    discriminate H.
Qed.

Lemma lowercase_fixed_not_upper (s : text) :
  lowercase s = s -> Forall (fun c => isupper c = false) s.
Proof.
  induction s as [|c s IH]; intros H; [constructor|].
  rewrite lowercase_cons in H. injection H as Hc Hs.
  constructor; [apply tolower_fixed_not_upper; exact Hc|auto].
Qed.

Lemma URLImpl_new_fresh (url : text) (i : URLImpl) :
  URLImpl_new url = inr i ->
  path i <> [] /\ query_params i = [] /\ query_params_parsed i = false.
Proof.
  unfold URLImpl_new.
  destruct (regex_match url url_regex) as [m|]; [|discriminate].
  destruct (parse_authority _ _) as [e|[h p]]; [discriminate|].
  intros H; inversion H; subst i. cbn [path query_params query_params_parsed].
  split; [|auto]. destruct (sub m 5); simpl; discriminate.
Qed.

(** X3.  Every value [parse] returns has a non-empty path, a scheme without
    upper-case letters and without [: / ? #], a port in [0, 65535] that is 0
    when the host is empty, a host without [/ ? #], a path without [? #], a
    query without [#], a fragment without line breaks, and an empty, unparsed
    query-parameter cache. *)
Theorem parse_invariants (s : text) (u : URL) (Hparse : parse s = inr (Some u)) :
  path (impl_ u) <> []
  /\ Forall (fun c => isupper c = false) (scheme (impl_ u))
  /\ none_of ":/?#" (scheme (impl_ u))
  /\ 0 <= port (impl_ u) <= 65535
  /\ (host (impl_ u) = [] -> port (impl_ u) = 0)
  /\ none_of "/?#" (host (impl_ u))
  /\ none_of "?#" (path (impl_ u))
  /\ none_of "#" (query (impl_ u))
  /\ Forall (fun c => accepts Dot c = true) (fragment (impl_ u))
  /\ query_params (impl_ u) = []
  /\ query_params_parsed (impl_ u) = false.
Proof.
  unfold parse in Hparse.
  destruct (URLImpl_new s) as [e|i] eqn:E; [destruct e; discriminate Hparse|].
  inversion Hparse; subst u. simpl impl_.
  destruct (URLImpl_new_well_formed _ _ E)
    as [Hsch Hlow Hhost Hport Hpath Hquery Hfrag].
  destruct (URLImpl_new_fresh _ _ E) as (Hne & Hqp & Hqpp).
  repeat split; auto; try lia.
  - apply lowercase_fixed_not_upper. exact Hlow.
  - intros Hh. destruct Hhost as [[_ Hp]|[Hshape _]]; [exact Hp|].
    apply host_shape_nonempty in Hshape. contradiction.
  - destruct Hhost as [[-> _]|[_ Hh]]; [constructor|exact Hh].
Qed.

Lemma parse_invariants_witness :
  let s := str "HTTP://Example.com/a?b#c" in
  let u := url_of "http" "Example.com" 80 "/a" "b" "c" in
  parse s = inr (Some u)
  /\ path (impl_ u) <> [] /\ 0 <= port (impl_ u) <= 65535.
Proof.
  intros s u.
  assert (H : parse s = inr (Some u)) by (vm_compute; reflexivity).
  split; [exact H|].
  destruct (parse_invariants s u H) as (H1 & _ & _ & H4 & _).
  split; assumption.
Defined.

(** ** The matcher finds a match when there is one *)

Lemma many_complete {A : Type} (a : cset) (w : text) :
  forall lo hi n rest (k : cursor -> option A) x,
    Forall (fun c => accepts a c = true) w ->
    (lo <= List.length w)%nat -> fits (List.length w) hi ->
    k ((n + List.length w)%nat, rest) = Some x ->
    exists y, many a lo hi n (w ++ rest) k = Some y.
Proof.
  induction w as [|c w IH]; intros lo hi n rest k x Hw Hlo Hhi Hk.
  - simpl in *. rewrite Nat.add_0_r in Hk.
    destruct lo; [|lia]. destruct rest as [|c r]; cbn [many]; [eauto|].
    destruct (accepts a c && below 0 hi); [|eauto].
    destruct (many a (Nat.pred 0) (dec_hi hi) (S n) r k); eauto.
  - inversion Hw; subst. simpl app. cbn [many].
    apply fits_tail in Hhi as [Hhi Hb]. rewrite H1, Hb. simpl andb.
    destruct (IH (Nat.pred lo) (dec_hi hi) (S n) rest k x) as [y Hy]; auto.
    + simpl in Hlo. lia.
    + simpl in Hk. rewrite <- Hk. f_equal. f_equal. lia.
    + rewrite Hy. eauto.
Qed.

Lemma run_complete r n w rest m m' :
  Matches r n w rest m m' ->
  forall (A : Type) (k : cursor -> smatch -> option A) x,
    k ((n + List.length w)%nat, rest) m' = Some x ->
    exists y, run r (n, w ++ rest) m k = Some y.
Proof.
  induction 1; intros A k x Hk.
  - simpl in *. eauto.
  - simpl in *. rewrite Nat.add_0_r in Hk. eauto.
  - simpl in Hk. rewrite Nat.add_1_r in Hk. cbn. rewrite H. eauto.
  - rewrite run_many. eapply many_complete; eauto.
  - rewrite run_cat, <- app_assoc.
    rewrite length_app, Nat.add_assoc in Hk.
    destruct (IHMatches2 A k x Hk) as [y Hy].
    eapply IHMatches1. exact Hy.
  - destruct (IHMatches A k x Hk) as [y Hy].
    exists y. apply run_or_left. exact Hy.
  - destruct (IHMatches A k x Hk) as [y Hy]. cbn [run].
    match goal with |- context [match ?t with _ => _ end] => destruct t end;
      eauto.
  - destruct (IHMatches A k x Hk) as [y Hy].
    exists y. apply run_maybe_take. exact Hy.
  - cbn [app List.length] in *. rewrite Nat.add_0_r in Hk. cbn [run].
    match goal with |- context [match ?t with _ => _ end] => destruct t end;
      eauto.
  - rewrite run_cap. eapply IHMatches. cbn [fst].
    replace (n + List.length w - n)%nat with (List.length w) by lia.
    rewrite firstn_length_app. exact Hk.
Qed.

Lemma regex_match_complete (s : text) (r : regex) (m' : smatch) :
  Matches r 0 s [] no_match m' -> exists m, regex_match s r = Some m.
Proof.
  intros H. unfold regex_match.
  pose proof (run_complete _ _ _ _ _ _ H smatch
                (fun st m => match snd st with
                             | [] => Some (set_group 0 s m)
                             | _ :: _ => None
                             end)
                (set_group 0 s m') eq_refl) as Hc.
  rewrite app_nil_r in Hc. exact Hc.
Qed.

(** ** When the outer pattern matches *)

Lemma url_regex_parts :
  url_regex
  = (Bol ;; scheme_re ;; authority_re ;; path_re ;; query_re ;; fragment_re)%re.
Proof. reflexivity. Qed.

Lemma after_hash_skip (a b : text) :
  Forall (fun c => c <> "#") a -> after_hash (a ++ b) = after_hash b.
Proof.
  induction 1 as [|c a Hc Ha IH]; [reflexivity|].
  simpl. rewrite (proj2 (Ascii.eqb_neq c "#") Hc). exact IH.
Qed.

Lemma hash_free_sound r n w rest m m' :
  Matches r n w rest m m' -> hash_free r = true ->
  Forall (fun c => c <> "#") w.
Proof.
  induction 1; cbn [hash_free]; intros Hf; try constructor; auto.
  - intros ->. rewrite H in Hf. discriminate Hf.
  - eapply Forall_impl; [|exact H]. intros c Hc ->.
    rewrite Hc in Hf. discriminate Hf.
  - apply andb_true_iff in Hf as [H1 H2]. apply Forall_app. auto.
  - apply andb_true_iff in Hf as [H1 H2]. auto.
  - apply andb_true_iff in Hf as [H1 H2]. auto.
Qed.

Lemma dot_line_break (c : ascii) : accepts Dot c = true <-> ~ line_break c.
Proof.
  unfold line_break. cbn [accepts char_in existsb].
  destruct (Ascii.eqb_spec c "010"); destruct (Ascii.eqb_spec c "013");
    simpl; split; intros H; try discriminate; try reflexivity; tauto.
Qed.

Lemma fragment_re_inv n w m m' :
  Matches fragment_re n w [] m m' ->
  w = [] \/ exists f, w = "#" :: f /\ Forall (fun c => accepts Dot c = true) f.
Proof.
  unfold fragment_re, lit, star. intros H. inv_matches; [right|left; reflexivity].
  apply lit_char in H0. subst. simpl. eauto.
Qed.

Lemma url_regex_fragment (s : text) (m : smatch) :
  regex_match s url_regex = Some m ->
  Forall (fun c => accepts Dot c = true) (after_hash s).
Proof.
  intros H. apply regex_match_sound in H as (m' & H & _).
  rewrite url_regex_parts in H.
  inversion H as [| | | |? ? ? w0 x0 ? ? ? ? H0 Hx0| | | | |]; subst; clear H.
  inversion Hx0 as [| | | |? ? ? w1 x1 ? ? ? ? H1 Hx1| | | | |]; subst; clear Hx0.
  inversion Hx1 as [| | | |? ? ? w2 x2 ? ? ? ? H2 Hx2| | | | |]; subst; clear Hx1.
  inversion Hx2 as [| | | |? ? ? w3 x3 ? ? ? ? H3 Hx3| | | | |]; subst; clear Hx2.
  inversion Hx3 as [| | | |? ? ? w4 w5 ? ? ? ? H4 H5| | | | |]; subst; clear Hx3.
  apply hash_free_sound in H0, H1, H2, H3, H4; try reflexivity.
  rewrite !after_hash_skip by assumption.
  apply fragment_re_inv in H5 as [->|(f & -> & Hf)]; [constructor|].
  simpl. exact Hf.
Qed.

Lemma span_none_spec (cs s : text) :
  s = fst (span_none cs s) ++ snd (span_none cs s)
  /\ Forall (fun c => accepts (NoneOf cs) c = true) (fst (span_none cs s))
  /\ (snd (span_none cs s) = []
      \/ exists c r, snd (span_none cs s) = c :: r /\ char_in c cs = true).
Proof.
  induction s as [|c s IH]; cbn [span_none].
  - simpl. auto.
  - destruct (char_in c cs) eqn:E.
    + simpl. split; [reflexivity|]. split; [constructor|]. right. eauto.
    + destruct (span_none cs s) as [a b]. simpl in *.
      destruct IH as (-> & Ha & Hb). split; [reflexivity|].
      split; [|exact Hb]. constructor; [|exact Ha].
      cbn [accepts]. rewrite E. reflexivity.
Qed.

Lemma fragment_re_matches n w m :
  w = [] \/ (exists f, w = "#" :: f /\ Forall (fun c => accepts Dot c = true) f) ->
  exists m', Matches fragment_re n w [] m m'.
Proof.
  intros [->|(f & -> & Hf)]; unfold fragment_re, lit, star.
  - eexists. apply M_Skip.
  - eexists. apply M_Take. apply M_Cap.
    eapply (M_Cat _ _ n ["#"%char] f []).
    + apply M_One. reflexivity.
    + apply M_Cap. apply M_Many; [exact Hf|lia|exact I].
Qed.

Lemma tail_matches n t m :
  Forall (fun c => accepts Dot c = true) (after_hash t) ->
  exists m', Matches (path_re ;; query_re ;; fragment_re)%re n t [] m m'.
Proof.
  intros Hdot.
  destruct (span_none_spec (str "?#") t) as (Et & Hp & Hrest).
  set (p := fst (span_none (str "?#") t)) in *.
  set (rest := snd (span_none (str "?#") t)) in *.
  assert (Hpn : Forall (fun c => c <> "#") p).
  { eapply Forall_impl; [|exact Hp]. intros c Hc ->. discriminate Hc. }
  rewrite Et, after_hash_skip in Hdot by exact Hpn. rewrite Et.
  assert (Hpath : forall rest' m0, Matches path_re n p rest' m0 (set_group 5 p m0)).
  { intros. unfold path_re, star. apply M_Cap. apply M_Many; [exact Hp|lia|exact I]. }
  assert (Hchar : forall c, char_in c (str "?#") = true -> c = "?" \/ c = "#").
  { intros c. cbn. destruct (Ascii.eqb_spec c "?"); destruct (Ascii.eqb_spec c "#");
      simpl; auto; discriminate. }
  destruct Hrest as [->|(c & r & -> & Hc)].
  - eexists. eapply M_Cat; [apply Hpath|].
    eapply (M_Cat _ _ _ [] [] []); [apply M_Skip|apply M_Skip].
  - destruct (Hchar c Hc) as [->| ->].
    + destruct (span_none_spec (str "#") r) as (Er & Hq & Hrest2).
      set (q := fst (span_none (str "#") r)) in *.
      set (rest2 := snd (span_none (str "#") r)) in *.
      assert (Hqn : Forall (fun c => c <> "#") q).
      { eapply Forall_impl; [|exact Hq]. intros c Hc' ->. discriminate Hc'. }
      rewrite Er in Hdot |- *. simpl in Hdot.
      rewrite after_hash_skip in Hdot by exact Hqn.
      destruct (fragment_re_matches (n + List.length p + List.length ("?" :: q))
                  rest2 (set_group 6 ("?" :: q) (set_group 7 q (set_group 5 p m))))
        as [m' Hm'].
      { destruct Hrest2 as [->|(c & r2 & -> & Hc2)]; [left; reflexivity|].
        right. exists r2.
        assert (c = "#") as ->.
        { cbn in Hc2. destruct (Ascii.eqb_spec c "#"); [assumption|discriminate]. }
        split; [reflexivity|]. simpl in Hdot. exact Hdot. }
      exists m'. eapply M_Cat; [apply Hpath|].
      eapply (M_Cat _ _ _ ("?" :: q) rest2 []); [|exact Hm'].
      unfold query_re, lit, star. apply M_Take. apply M_Cap.
      eapply (M_Cat _ _ _ ["?"%char] q).
      * apply M_One. reflexivity.
      * apply M_Cap. apply M_Many; [exact Hq|lia|exact I].
    + simpl in Hdot.
      destruct (fragment_re_matches (n + List.length p + 0) ("#" :: r)
                  (set_group 5 p m)) as [m' Hm'].
      { right. eauto. }
      exists m'. eapply M_Cat; [apply Hpath|].
      eapply (M_Cat _ _ _ [] ("#" :: r) []); [apply M_Skip|exact Hm'].
Qed.

Lemma url_regex_matches (s : text) :
  Forall (fun c => accepts Dot c = true) (after_hash s) ->
  exists m, regex_match s url_regex = Some m.
Proof.
  intros Hdot. destruct (tail_matches 0 s no_match Hdot) as [m' Hm'].
  apply (regex_match_complete s url_regex m').
  rewrite url_regex_parts.
  eapply (M_Cat _ _ 0%nat [] s []); [apply M_Bol|].
  eapply (M_Cat _ _ 0%nat [] s []); [apply M_Skip|].
  eapply (M_Cat _ _ 0%nat [] s []); [apply M_Skip|].
  exact Hm'.
Qed.

(** X4.  The constructor fails with [Invalid URL format] exactly when a line
    feed or carriage return follows the first [#] of the input; every other
    text passes the outer pattern. *)
Theorem malformed_iff_line_break (s : text) :
  URLImpl_new s = inl Malformed
  <-> Exists line_break (after_hash s).
Proof.
  assert (Hdec : forall c, accepts Dot c = true \/ ~ accepts Dot c = true).
  { intros c. destruct (accepts Dot c); [left; reflexivity|right; discriminate]. }
  split.
  - intros H.
    assert (Hn : ~ Forall (fun c => accepts Dot c = true) (after_hash s)).
    { intros Hdot. destruct (url_regex_matches s Hdot) as [m Hm].
      unfold URLImpl_new in H. rewrite Hm in H.
      destruct (parse_authority _ _) as [e|[h p]] eqn:Ea; [|discriminate H].
      assert (He : exists what, e = URLParseError what /\ what <> "Invalid URL format"%string).
      { unfold parse_authority in Ea. destruct (sub m 4); [discriminate Ea|].
        destruct (regex_match _ authority_regex); [|inversion Ea; eexists; split; [reflexivity|discriminate]].
        destruct (authority_port _ _) as [e'|p'] eqn:Ep; [|discriminate Ea].
        inversion Ea; subst. apply authority_port_throws in Ep. subst.
        eexists; split; [reflexivity|discriminate]. }
      destruct He as (what & -> & Hw). inversion H. contradiction. }
    apply (Exists_Forall_neg _ _ Hdec) in Hn.
    eapply Exists_impl; [|exact Hn]. intros c Hc.
    destruct (Hdec c) as [Hc'|_]; [contradiction|].
    unfold line_break.
    destruct (Ascii.eqb_spec c "010") as [Hl|Hl]; [left; exact Hl|].
    destruct (Ascii.eqb_spec c "013") as [Hr|Hr]; [right; exact Hr|].
    exfalso. apply Hc. apply dot_line_break. unfold line_break. tauto.
  - intros Hex. unfold URLImpl_new.
    destruct (regex_match s url_regex) as [m|] eqn:Hm; [|reflexivity].
    exfalso. apply url_regex_fragment in Hm.
    apply Exists_exists in Hex as (c & Hin & Hc).
    rewrite Forall_forall in Hm. specialize (Hm c Hin).
    apply dot_line_break in Hm. contradiction.
Qed.

(** ** Host and port after any prefix *)

Lemma host_split_unique (h pt w w2 : text) :
  h <> [] -> none_of ":" h ->
  (pt = [] \/ exists d, pt = ":" :: d /\ forall r, d <> "]" :: r) ->
  host_shape w -> (w2 = [] \/ exists r, w2 = ":" :: r) ->
  h ++ pt = w ++ w2 -> h = w /\ pt = w2.
Proof.
  intros Hne Hplain Hpt Hw Hw2 Es.
  assert (Hpt' : pt = [] \/ exists r, pt = ":" :: r).
  { destruct Hpt as [->|(d & -> & _)]; eauto. }
  assert (Hwplain : none_of ":" w).
  { destruct Hw as [(c & bs & -> & Hlen & Hbs)|[_ Hw]]; [|exact Hw].
    unfold none_of. constructor; [reflexivity|].
    assert (Hbs' : none_of ":" (bs ++ ["]"])).
    { apply Forall_app. split.
      - eapply Forall_impl; [|exact Hbs]. intros a Ha.
        apply lit_char in Ha. subst a. reflexivity.
      - constructor; [reflexivity|constructor]. }
    constructor; [|exact Hbs'].
    destruct (accepts (NoneOf (str ":")) c) eqn:Ec; [reflexivity|exfalso].
    assert (c = ":") as ->.
    { simpl in Ec. destruct (Ascii.eqb_spec c ":"); [assumption|discriminate Ec]. }
    destruct h as [|h0 h]; [congruence|].
    simpl in Es. injection Es as _ Es.
    inversion Hplain as [|? ? _ Hh]. subst.
    destruct h as [|h1 h].
    - destruct Hpt as [->|(d & -> & Hd)]; [discriminate Es|].
      simpl in Es. injection Es as Es.
      destruct bs as [|b0 bs]; [simpl in Hlen; lia|].
      inversion Hbs as [|? ? Hb0 _]. apply lit_char in Hb0. subst b0.
      simpl in Es. exact (Hd _ Es).
    - simpl in Es. injection Es as Eh1 _. inversion Hh as [|? ? Hh1 _].
      subst. discriminate Hh1. }
  exact (split_at_colon h w pt w2 Hplain Hwplain Hpt' Hw2 Es).
Qed.


Lemma port_re_inv n w rest m m' :
  Matches (Maybe port_re) n w rest m m' ->
  (w = [] /\ m' = m)
  \/ exists d, w = ":" :: d /\ port_digits d /\ m' = set_group 4 d m.
Proof.
  unfold port_re, lit. intros H. inv_matches.
  - right. apply lit_char in H0. subst. simpl. eexists.
    split; [reflexivity|]. split; [split; auto|reflexivity].
  - left. auto.
Qed.



(** ** User information and port texts *)

Lemma none_of_at_delims :
  none_of "/?#" ["@"%char] /\ none_of "/?#" [":"%char].
Proof. split; repeat constructor. Qed.



Lemma authority_rejects_port (h d : text) :
  h <> [] -> none_of ":" h -> ~ In "@" h ->
  ~ In "@" d -> (forall r, d <> "]" :: r) -> ~ port_digits d ->
  regex_match (h ++ ":" :: d) authority_regex = None.
Proof.
  intros Hne Hplain Hat Hatd Hbr Hnd.
  destruct (regex_match (h ++ ":" :: d) authority_regex) as [am|] eqn:E;
    [exfalso|reflexivity].
  apply regex_match_sound in E as (m' & H & _).
  change authority_regex
    with (Bol ;; Maybe userinfo_re ;; Cap 3 (Or bracket_host_re plain_host_re)
          ;; Maybe port_re ;; Eol)%re in H.
  inversion H as [| | | |? ? ? w0 x0 ? ? ? ? Hbol Hx0| | | | |]; subst; clear H.
  inversion Hx0 as [| | | |? ? ? w1 x1 ? ? ? ? Huser Hx1| | | | |]; subst; clear Hx0.
  inversion Hx1 as [| | | |? ? ? w2 x2 ? ? ? ? Hcap Hx2| | | | |]; subst; clear Hx1.
  inversion Hx2 as [| | | |? ? ? w3 w4 ? ? ? ? Hport Heol| | | | |]; subst; clear Hx2.
  inversion Hbol; subst. inversion Heol; subst. clear Hbol Heol.
  rewrite app_nil_r in *. cbn [app] in *.
  assert (Hw1 : w1 = []).
  { inversion Huser as [| | | | | | |? ? ? ? ? ? Hui| |]; subst; [|reflexivity].
    exfalso. apply userinfo_needs_at in Hui.
    assert (Hin : In "@" (h ++ ":" :: d)).
    { match goal with E : _ = h ++ ":" :: d |- _ => rewrite <- E end.
      apply in_or_app. left. exact Hui. }
    apply in_app_iff in Hin as [Hin|[Hin|Hin]]; [tauto|discriminate Hin|tauto]. }
  subst w1. cbn [app] in *.
  inversion Hcap as [| | | | | | | | |? ? ? ? ? ? ? Hhost]; subst.
  apply host_re_shape in Hhost as [Hshape _].
  apply port_re_inv in Hport.
  assert (Hw3 : w3 = [] \/ exists r, w3 = ":" :: r).
  { destruct Hport as [[-> _]|(d' & -> & _)]; eauto. }
  match goal with E : _ = h ++ ":" :: d |- _ => symmetry in E;
    destruct (host_split_unique h (":" :: d) w2 w3 Hne Hplain
                ltac:(right; eauto) Hshape Hw3 E) as [_ Ept] end.
  destruct Hport as [[-> _]|(d' & -> & Hd' & _)]; [discriminate Ept|].
  inversion Ept; subst. contradiction.
Qed.

(** X6.  A port text that is not one to five decimal digits makes the
    constructor fail with [Invalid authority component]: after a host
    without colon and without [@], a colon followed by anything else
    (nothing, more than five digits, a letter; no [@], closing bracket, [/],
    [?] or [#] in it) is refused by the authority pattern, and [parse] returns no
    value. *)
Theorem invalid_port_text_rejected (sch h d pth q f : text)
    (Hne : sch <> []) (Hsch : none_of ":/?#" sch)
    (Hhne : h <> []) (Hplain : none_of ":" h) (Hat : ~ In "@" h)
    (Hh : none_of "/?#" h)
    (Hd : none_of "/?#" d) (Hatd : ~ In "@" d) (Hbr : ~ In "]" d)
    (Hnd : ~ port_digits d)
    (Hroot : rooted pth) (Hpth : none_of "?#" pth)
    (Hq : none_of "#" q)
    (Hf : Forall (fun c => accepts Dot c = true) f) :
  let url := sch ++ str "://" ++ (h ++ ":" :: d) ++ pth ++ query_segment q
               ++ fragment_segment f in
  URLImpl_new url = inl InvalidAuthority
  /\ parse url = inr None.
Proof.
  intros url.
  destruct (url_regex_rooted sch (h ++ ":" :: d) pth q f)
    as (m & Hm & E2 & E4 & E5 & E7 & E9); auto.
  { apply Forall_app. split; [exact Hh|]. constructor; [reflexivity|exact Hd]. }
  assert (Hnew : URLImpl_new url = inl InvalidAuthority).
  { unfold URLImpl_new. subst url. rewrite Hm, E4. unfold parse_authority.
    rewrite authority_rejects_port; auto.
    - destruct (h ++ ":" :: d) eqn:E; [|reflexivity].
      apply app_eq_nil in E as [_ E]. discriminate E.
    - intros r ->. apply Hbr. left. reflexivity. }
  split; [exact Hnew|]. unfold parse. rewrite Hnew. reflexivity.
Qed.

Lemma invalid_port_text_rejected_witness :
  let sch := str "http" in
  let h := str "example.com" in
  let d := str "065536" in
  let pth := str "/" in
  sch <> [] /\ none_of ":/?#" sch /\ h <> [] /\ none_of ":" h /\ ~ In "@" h
  /\ none_of "/?#" h /\ none_of "/?#" d /\ ~ In "@" d /\ ~ In "]" d
  /\ ~ port_digits d /\ rooted pth /\ none_of "?#" pth /\ none_of "#" []
  /\ Forall (fun c => accepts Dot c = true) []
  /\ parse (str "http://example.com:065536/") = inr None.
Proof.
  intros sch h d pth.
  assert (H1 : sch <> []) by discriminate.
  assert (H2 : none_of ":/?#" sch) by (repeat constructor).
  assert (H3 : h <> []) by discriminate.
  assert (H4 : none_of ":" h) by (repeat constructor).
  assert (H5 : ~ In "@" h).
  { cbv [In str list_ascii_of_string h]. intuition discriminate. }
  assert (H6 : none_of "/?#" h) by (repeat constructor).
  assert (H7 : none_of "/?#" d) by (repeat constructor).
  assert (H8 : ~ In "@" d).
  { cbv [In str list_ascii_of_string d]. intuition discriminate. }
  assert (H9 : ~ In "]" d).
  { cbv [In str list_ascii_of_string d]. intuition discriminate. }
  assert (H10 : ~ port_digits d).
  { intros [_ Hl]. simpl in Hl. lia. }
  assert (H11 : rooted pth) by (right; eexists; reflexivity).
  assert (H12 : none_of "?#" pth) by (repeat constructor).
  assert (H13 : none_of "#" []) by constructor.
  assert (H14 : Forall (fun c => accepts Dot c = true) []) by constructor.
  repeat (split; [assumption|]).
  exact (proj2 (invalid_port_text_rejected sch h d pth [] [] H1 H2 H3 H4
                  H5 H6 H7 H8 H9 H10 H11 H12 H13 H14)).
Defined.

(** ** Reading back the canonical text *)

Lemma port_of_shown (sch : text) (p : Z) :
  0 <= p < 65536 -> p <> 0 \/ find_port sch = None ->
  port_of sch (shown_digits sch p) = p.
Proof.
  intros Hp Hcase.
  destruct (shown_digits_cases sch p Hp) as [[E Hc]|(E & Hpos & Hfind & Hd)].
  - rewrite E. unfold port_of.
    destruct Hc as [->|Hc].
    + destruct Hcase as [Hn|Hf]; [congruence|rewrite Hf; reflexivity].
    + rewrite Hc. reflexivity.
  - rewrite E. destruct (to_decimal_stoi p ltac:(lia)) as [Hstoi _].
    rewrite (stoi_port_value _ Hd) in Hstoi. injection Hstoi as Hv.
    unfold port_of. rewrite Hv. unfold to_uint16. rewrite Z.mod_small by lia.
    destruct Hd as [_ Hlen]. destruct (to_decimal p); [simpl in Hlen; lia|].
    reflexivity.
Qed.

Lemma reparse_well_formed (u : URL) :
  well_formed (impl_ u) ->
  query_params (impl_ u) = [] -> query_params_parsed (impl_ u) = false ->
  scheme (impl_ u) <> [] ->
  (exists r, path (impl_ u) = "/" :: r) ->
  ~ In "@" (host (impl_ u)) ->
  port (impl_ u) <> 0 \/ find_port (scheme (impl_ u)) = None
  \/ host (impl_ u) = [] ->
  parse (to_string u) = inr (Some u).
Proof.
  destruct u as [[sch hst p pth q f qp qpp]]. simpl impl_.
  intros [Hsch Hlow Hhost Hport Hpath Hquery Hfrag].
  cbn [scheme host port path query fragment query_params query_params_parsed] in *.
  intros -> -> Hne [r ->] Hat Hcase.
  rewrite to_string_layout by exact Hport.
  simpl impl_. cbn [scheme host port path query fragment].
  assert (Hroot : rooted ("/" :: r)) by (right; eauto).
  destruct Hhost as [[-> ->]|[Hshape Hh]].
  - change (parse (sch ++ str "://" ++ ("/" :: r) ++ query_segment q
                     ++ fragment_segment f)
            = inr (Some (mkURL (mkURLImpl sch [] 0 ("/" :: r) q f [] false)))).
    unfold parse. rewrite URLImpl_new_without_host by assumption.
    rewrite Hlow. reflexivity.
  - assert (Hd : shown_digits sch p = [] \/ port_digits (shown_digits sch p)).
    { destruct (shown_digits_cases sch p Hport) as [[E _]|(E & _ & _ & Hd)];
        [left; exact E|right; rewrite E; exact Hd]. }
    unfold parse. rewrite URLImpl_new_components by assumption. rewrite Hlow.
    rewrite port_of_shown; [reflexivity|exact Hport|].
    destruct Hcase as [H|[H|H]]; auto.
    apply host_shape_nonempty in Hshape. contradiction.
Qed.

Lemma parse_well_formed (s : text) (u : URL) :
  parse s = inr (Some u) ->
  well_formed (impl_ u)
  /\ query_params (impl_ u) = [] /\ query_params_parsed (impl_ u) = false.
Proof.
  unfold parse. intros H.
  destruct (URLImpl_new s) as [e|i] eqn:E; [destruct e; discriminate H|].
  inversion H; subst u. simpl impl_.
  split; [eapply URLImpl_new_well_formed; exact E|].
  destruct (URLImpl_new_fresh _ _ E) as (_ & H1 & H2). auto.
Qed.

(** X7.  [parse] reads the canonical text of a value it returned back to the
    very same value, when the scheme is not empty, the path begins with [/],
    the host has no [@], and the port is not a 0 that the scheme's default
    would replace (a port 0 survives when there is no host or no default). *)
Theorem reparse_identity (s : text) (u : URL)
    (Hparse : parse s = inr (Some u))
    (Hne : scheme (impl_ u) <> [])
    (Hpath : exists r, path (impl_ u) = "/" :: r)
    (Hat : ~ In "@" (host (impl_ u)))
    (Hport : port (impl_ u) <> 0 \/ find_port (scheme (impl_ u)) = None
             \/ host (impl_ u) = []) :
  parse (to_string u) = inr (Some u).
Proof.
  destruct (parse_well_formed s u Hparse) as (Hwf & Hqp & Hqpp).
  apply reparse_well_formed; assumption.
Qed.

Lemma reparse_identity_witness :
  let s := str "HTTP://user@Example.com:0080/a?b#c" in
  let u := url_of "http" "Example.com" 80 "/a" "b" "c" in
  parse s = inr (Some u)
  /\ scheme (impl_ u) <> []
  /\ (exists r, path (impl_ u) = "/" :: r)
  /\ ~ In "@" (host (impl_ u))
  /\ (port (impl_ u) <> 0 \/ find_port (scheme (impl_ u)) = None
      \/ host (impl_ u) = [])
  /\ to_string u = str "http://Example.com/a?b#c"
  /\ parse (to_string u) = inr (Some u).
Proof.
  intros s u.
  assert (H1 : parse s = inr (Some u)) by (vm_compute; reflexivity).
  assert (H2 : scheme (impl_ u) <> []) by discriminate.
  assert (H3 : exists r, path (impl_ u) = "/" :: r) by (eexists; reflexivity).
  assert (H4 : ~ In "@" (host (impl_ u))).
  { cbv [In str list_ascii_of_string host impl_ url_of u]. intuition discriminate. }
  assert (H5 : port (impl_ u) <> 0 \/ find_port (scheme (impl_ u)) = None
               \/ host (impl_ u) = []) by (left; discriminate).
  repeat (split; [assumption|]).
  split; [vm_compute; reflexivity|].
  exact (reparse_identity s u H1 H2 H3 H4 H5).
Defined.

(** ** Mutators *)

(** X8.  The two mutators act on different components: in either order they
    leave the same object, each with the outcome it has on its own. *)
Theorem mutators_commute (new_scheme : text) (p : Z) (u : URL) :
  snd (set_port p (snd (set_scheme new_scheme u)))
  = snd (set_scheme new_scheme (snd (set_port p u)))
  /\ fst (set_port p (snd (set_scheme new_scheme u))) = fst (set_port p u)
  /\ fst (set_scheme new_scheme (snd (set_port p u)))
     = fst (set_scheme new_scheme u).
Proof.
  unfold set_port, set_scheme.
  destruct (p =? 0); destruct (lowercase new_scheme) as [|c r];
    try destruct (negb (isalpha c)); simpl; repeat split.
Qed.

Lemma set_port_well_formed (p : Z) (u : URL) :
  well_formed (impl_ u) -> host (impl_ u) <> [] -> 0 < p <= 65535 ->
  well_formed (impl_ (snd (set_port p u))).
Proof.
  intros [Hsch Hlow Hhost Hport Hpath Hquery Hfrag] Hh Hp.
  unfold set_port. replace (p =? 0) with false by lia. simpl.
  constructor; cbn [scheme host port path query fragment]; auto; try lia.
  right. destruct Hhost as [[E _]|H]; [contradiction|exact H].
Qed.

(** X9.  After [set_port(p)], [0 < p <= 65535], on a value that [parse]
    returned with a host, the canonical text is read back to the very same
    value (non-empty scheme, path beginning with [/], host without [@]). *)
Theorem set_port_reparse (s : text) (u : URL) (p : Z)
    (Hparse : parse s = inr (Some u))
    (Hp : 0 < p <= 65535)
    (Hne : scheme (impl_ u) <> [])
    (Hhost : host (impl_ u) <> [])
    (Hpath : exists r, path (impl_ u) = "/" :: r)
    (Hat : ~ In "@" (host (impl_ u))) :
  let u' := snd (set_port p u) in
  port (impl_ u') = p /\ parse (to_string u') = inr (Some u').
Proof.
  intros u'.
  destruct (parse_well_formed s u Hparse) as (Hwf & Hqp & Hqpp).
  pose proof (set_port_well_formed p u Hwf Hhost Hp) as Hwf'.
  subst u'. revert Hwf'. unfold set_port. replace (p =? 0) with false by lia.
  cbn [snd]. intros Hwf'. split; [reflexivity|].
  apply reparse_well_formed; simpl; auto. left. lia.
Qed.

Lemma set_port_reparse_witness :
  let s := str "http://example.com/a" in
  let u := url_of "http" "example.com" 80 "/a" "" "" in
  parse s = inr (Some u) /\ 0 < 8080 <= 65535
  /\ scheme (impl_ u) <> [] /\ host (impl_ u) <> []
  /\ (exists r, path (impl_ u) = "/" :: r)
  /\ ~ In "@" (host (impl_ u))
  /\ parse (to_string (snd (set_port 8080 u)))
     = inr (Some (snd (set_port 8080 u))).
Proof.
  intros s u.
  assert (H1 : parse s = inr (Some u)) by (vm_compute; reflexivity).
  assert (H2 : 0 < 8080 <= 65535) by lia.
  assert (H3 : scheme (impl_ u) <> []) by discriminate.
  assert (H4 : host (impl_ u) <> []) by discriminate.
  assert (H5 : exists r, path (impl_ u) = "/" :: r) by (eexists; reflexivity).
  assert (H6 : ~ In "@" (host (impl_ u))).
  { cbv [In str list_ascii_of_string host impl_ url_of u]. intuition discriminate. }
  repeat (split; [assumption|]).
  exact (proj2 (set_port_reparse s u 8080 H1 H2 H3 H4 H5 H6)).
Defined.

Lemma set_scheme_well_formed (new_scheme : text) (u : URL) :
  well_formed (impl_ u) -> none_of ":/?#" (lowercase new_scheme) ->
  well_formed (impl_ (snd (set_scheme new_scheme u))).
Proof.
  intros [Hsch Hlow Hhost Hport Hpath Hquery Hfrag] Hnew.
  unfold set_scheme. destruct (lowercase new_scheme) as [|c r] eqn:E.
  - simpl. constructor; assumption.
  - destruct (negb (isalpha c)); simpl; [constructor; assumption|].
    constructor; cbn [scheme host port path query fragment]; auto.
    rewrite <- E. apply lowercase_idem.
Qed.

(** X10.  After a successful [set_scheme] with a text free of [: / ? #] on a
    value that [parse] returned, the canonical text is still accepted and is
    its own canonical text (path beginning with [/], host without [@]): the
    round trip survives a change of scheme. *)
Theorem set_scheme_roundtrip (s new_scheme : text) (u : URL)
    (Hparse : parse s = inr (Some u))
    (Hok : fst (set_scheme new_scheme u) = inr tt)
    (Hnew : none_of ":/?#" (lowercase new_scheme))
    (Hpath : exists r, path (impl_ u) = "/" :: r)
    (Hat : ~ In "@" (host (impl_ u))) :
  let u' := snd (set_scheme new_scheme u) in
  exists v, parse (to_string u') = inr (Some v)
    /\ to_string v = to_string u'
    /\ scheme (impl_ v) = lowercase new_scheme.
Proof.
  intros u'.
  destruct (parse_well_formed s u Hparse) as (Hwf & _ & _).
  pose proof (set_scheme_well_formed new_scheme u Hwf Hnew) as Hwf'.
  fold u' in Hwf'.
  assert (Hu' : scheme (impl_ u') = lowercase new_scheme
                /\ host (impl_ u') = host (impl_ u)
                /\ path (impl_ u') = path (impl_ u)
                /\ lowercase new_scheme <> []).
  { subst u'. revert Hok. unfold set_scheme.
    destruct (lowercase new_scheme) as [|c r]; [discriminate|].
    destruct (negb (isalpha c)); [discriminate|]. simpl.
    intros _. repeat split. discriminate. }
  destruct Hu' as (Es & Eh & Ep & Hne).
  destruct (roundtrip_well_formed u' Hwf') as (v & Hv & Hs & Hsch & _).
  - rewrite Es. exact Hne.
  - rewrite Ep. exact Hpath.
  - rewrite Eh. exact Hat.
  - exists v. rewrite Hsch, Es. auto.
Qed.

Lemma set_scheme_roundtrip_witness :
  let s := str "http://example.com:443/a" in
  let u := url_of "http" "example.com" 443 "/a" "" "" in
  let u' := snd (set_scheme (str "HTTPS") u) in
  parse s = inr (Some u)
  /\ fst (set_scheme (str "HTTPS") u) = inr tt
  /\ none_of ":/?#" (lowercase (str "HTTPS"))
  /\ (exists r, path (impl_ u) = "/" :: r)
  /\ ~ In "@" (host (impl_ u))
  /\ to_string u' = str "https://example.com/a"
  /\ exists v, parse (to_string u') = inr (Some v)
       /\ to_string v = to_string u'
       /\ scheme (impl_ v) = lowercase (str "HTTPS").
Proof.
  intros s u u'.
  assert (H1 : parse s = inr (Some u)) by (vm_compute; reflexivity).
  assert (H2 : fst (set_scheme (str "HTTPS") u) = inr tt) by reflexivity.
  assert (H3 : none_of ":/?#" (lowercase (str "HTTPS"))) by (repeat constructor).
  assert (H4 : exists r, path (impl_ u) = "/" :: r) by (eexists; reflexivity).
  assert (H5 : ~ In "@" (host (impl_ u))).
  { cbv [In str list_ascii_of_string host impl_ url_of u]. intuition discriminate. }
  repeat (split; [assumption|]).
  split; [vm_compute; reflexivity|].
  exact (set_scheme_roundtrip s (str "HTTPS") u H1 H2 H3 H4 H5).
Defined.

Lemma authority_rejects_empty_host (d : text) :
  ~ In "@" d -> regex_match (":" :: d) authority_regex = None.
Proof.
  intros Hatd.
  destruct (regex_match (":" :: d) authority_regex) as [am|] eqn:E;
    [exfalso|reflexivity].
  apply regex_match_sound in E as (m' & H & _).
  change authority_regex
    with (Bol ;; Maybe userinfo_re ;; Cap 3 (Or bracket_host_re plain_host_re)
          ;; Maybe port_re ;; Eol)%re in H.
  inversion H as [| | | |? ? ? w0 x0 ? ? ? ? Hbol Hx0| | | | |]; subst; clear H.
  inversion Hx0 as [| | | |? ? ? w1 x1 ? ? ? ? Huser Hx1| | | | |]; subst; clear Hx0.
  inversion Hx1 as [| | | |? ? ? w2 x2 ? ? ? ? Hcap Hx2| | | | |]; subst; clear Hx1.
  inversion Hbol; subst. clear Hbol. cbn [app] in *.
  assert (Hw1 : w1 = []).
  { inversion Huser as [| | | | | | |? ? ? ? ? ? Hui| |]; subst; [|reflexivity].
    exfalso. apply userinfo_needs_at in Hui.
    assert (Hin : In "@" (":" :: d)).
    { match goal with E : _ = ":" :: d |- _ => rewrite <- E end.
      apply in_or_app. left. exact Hui. }
    destruct Hin as [Hin|Hin]; [discriminate Hin|tauto]. }
  subst w1. cbn [app] in *.
  inversion Hcap as [| | | | | | | | |? ? ? ? ? ? ? Hhost]; subst.
  apply host_re_shape in Hhost as [Hshape _].
  destruct Hshape as [(c & bs & -> & _)|[Hne Hplain]].
  - match goal with E : _ = ":" :: d |- _ => simpl in E; discriminate E end.
  - destruct w2 as [|c w2]; [congruence|].
    match goal with E : _ = ":" :: d |- _ => simpl in E; injection E as Ec _ end.
    inversion Hplain as [|? ? Hc _]. subst. discriminate Hc.
Qed.

(** X11.  [set_port] does not look at the host: after [set_port(p)],
    [0 < p <= 65535] and [p] not the default port of the scheme, on a value
    that [parse] returned without a host, with a scheme that is not empty
    and a path that begins with [/], the canonical text is the scheme,
    [://], the authority [:p] and the path, query and fragment, and [parse]
    returns no value for it. *)
Theorem set_port_without_host (s : text) (u : URL) (p : Z)
    (Hparse : parse s = inr (Some u))
    (Hp : 0 < p <= 65535)
    (Hne : scheme (impl_ u) <> [])
    (Hhost : host (impl_ u) = [])
    (Hpath : exists r, path (impl_ u) = "/" :: r)
    (Hdef : find_port (scheme (impl_ u)) <> Some p) :
  let u' := snd (set_port p u) in
  fst (set_port p u) = inr tt
  /\ to_string u'
     = scheme (impl_ u) ++ str "://" ++ (":" :: to_decimal p) ++ path (impl_ u)
       ++ query_segment (query (impl_ u)) ++ fragment_segment (fragment (impl_ u))
  /\ parse (to_string u') = inr None.
Proof.
  intros u'. subst u'.
  destruct (parse_well_formed s u Hparse) as (Hwf & _ & _).
  destruct Hwf as [Hsch Hlow _ _ Hpth Hquery Hfrag].
  unfold set_port. replace (p =? 0) with false by lia. cbn [fst snd].
  split; [reflexivity|].
  rewrite to_string_layout by (simpl; lia).
  destruct u as [[sch hst p0 pth q f qp qpp]]. simpl impl_ in *.
  cbn [scheme host port path query fragment with_port impl_] in *.
  subst hst. destruct Hpath as [r ->].
  assert (Hshown : shown_digits sch p = to_decimal p /\ port_digits (to_decimal p)).
  { destruct (shown_digits_cases sch p ltac:(lia)) as [[_ [E|E]]|(E & _ & _ & Hd)];
      [lia|contradiction|auto]. }
  destruct Hshown as [-> [Hdig Hlen]].
  assert (Ept : port_text (to_decimal p) = ":" :: to_decimal p).
  { destruct (to_decimal p); [simpl in Hlen; lia|reflexivity]. }
  rewrite Ept.
  change ([] ++ ":" :: to_decimal p) with (":" :: to_decimal p).
  split; [reflexivity|].
  destruct (url_regex_rooted sch (":" :: to_decimal p) ("/" :: r) q f)
    as (m & Hm & E2 & E4 & E5 & E7 & E9); auto.
  { constructor; [reflexivity|].
    eapply Forall_impl; [|exact Hdig]. apply digit_not_delim. }
  { right. eauto. }
  unfold parse, URLImpl_new. rewrite Hm, E4. unfold parse_authority.
  rewrite authority_rejects_empty_host; [reflexivity|].
  apply digit_not_at. exact Hdig.
Qed.

Lemma set_port_without_host_witness :
  let s := str "file:///etc/hosts" in
  let u := url_of "file" "" 0 "/etc/hosts" "" "" in
  parse s = inr (Some u) /\ 0 < 8080 <= 65535
  /\ scheme (impl_ u) <> [] /\ host (impl_ u) = []
  /\ (exists r, path (impl_ u) = "/" :: r)
  /\ find_port (scheme (impl_ u)) <> Some 8080
  /\ to_string (snd (set_port 8080 u)) = str "file://:8080/etc/hosts"
  /\ parse (to_string (snd (set_port 8080 u))) = inr None.
Proof.
  intros s u.
  assert (H1 : parse s = inr (Some u)) by (vm_compute; reflexivity).
  assert (H2 : 0 < 8080 <= 65535) by lia.
  assert (H3 : scheme (impl_ u) <> []) by discriminate.
  assert (H4 : host (impl_ u) = []) by reflexivity.
  assert (H5 : exists r, path (impl_ u) = "/" :: r) by (eexists; reflexivity).
  assert (H6 : find_port (scheme (impl_ u)) <> Some 8080) by discriminate.
  repeat (split; [assumption|]).
  split; [vm_compute; reflexivity|].
  exact (proj2 (proj2 (set_port_without_host s u 8080 H1 H2 H3 H4 H5 H6))).
Defined.

(** ** Percent decoding, continued *)

Section DecodeFacts.
Variable stream_hex : text -> Z.

Lemma decode_scan_length (n : nat) :
  forall s : text, (List.length s <= n)%nat ->
    (List.length (decode_scan stream_hex s) <= List.length s)%nat.
Proof.
  induction n as [|n IH]; intros s Hn.
  - destruct s; [simpl; lia|simpl in Hn; lia].
  - destruct s as [|c [|a [|b rest]]]; try (simpl; lia).
    pose proof (IH rest ltac:(simpl in *; lia)) as H1.
    pose proof (IH (a :: b :: rest) ltac:(simpl in *; lia)) as H2.
    change (decode_scan stream_hex (c :: a :: b :: rest))
      with (if Ascii.eqb c "%"
            then char_of_int (stream_hex [a; b]) :: decode_scan stream_hex rest
            else (if Ascii.eqb c "+" then " "%char else c)
                   :: decode_scan stream_hex (a :: b :: rest)).
    destruct (Ascii.eqb c "%"); cbn [List.length] in *; lia.
Qed.

Lemma decode_scan_plain (a b : text) :
  ~ In "%"%char a ->
  decode_scan stream_hex (a ++ b) = map plus_to_space a ++ decode_scan stream_hex b.
Proof.
  induction a as [|c a IH]; intros Hno; [reflexivity|].
  assert (Hc : Ascii.eqb c "%" = false).
  { apply Ascii.eqb_neq. intros ->. apply Hno. left. reflexivity. }
  assert (Ha : ~ In "%"%char a) by (intros H; apply Hno; right; exact H).
  specialize (IH Ha).
  change ((c :: a) ++ b) with (c :: (a ++ b)).
  cbn [decode_scan map app]. rewrite Hc, IH.
  destruct (a ++ b) as [|x [|y r]]; reflexivity.
Qed.

End DecodeFacts.

(** X12.  [decode_uri_component] never returns more characters than it is
    given: the capacity reserved before the loop is enough. *)
Theorem decode_uri_component_length (stream_hex : text -> Z) (s : text) :
  (List.length (decode_uri_component stream_hex s) <= List.length s)%nat.
Proof.
  rewrite decode_uri_component_scan. apply (decode_scan_length _ (List.length s)).
  lia.
Qed.

(** X13.  Up to its first [%], [decode_uri_component] works character by
    character: a text [a] without [%] followed by any text [b] decodes to [a]
    with every [+] replaced by a space, followed by the decoding of [b].  So
    a text without [%] and [+] is returned as it is, whatever the
    hexadecimal extraction does. *)
Theorem decode_uri_component_plain (stream_hex : text -> Z) (a b : text)
    (Hno : ~ In "%"%char a) :
  decode_uri_component stream_hex (a ++ b)
  = map plus_to_space a ++ decode_uri_component stream_hex b
  /\ (~ In "+"%char a -> decode_uri_component stream_hex a = a).
Proof.
  rewrite !decode_uri_component_scan. split.
  - apply decode_scan_plain. exact Hno.
  - intros Hplus. rewrite <- (app_nil_r a) at 1.
    rewrite decode_scan_plain by exact Hno. cbn [decode_scan].
    rewrite app_nil_r. clear Hno.
    induction a as [|c a IH]; [reflexivity|].
    cbn [map]. rewrite IH by (intros H; apply Hplus; right; exact H).
    unfold plus_to_space.
    destruct (Ascii.eqb_spec c "+") as [->|_]; [|reflexivity].
    exfalso. apply Hplus. left. reflexivity.
Qed.

Lemma decode_uri_component_plain_witness :
  ~ In "%"%char (str "a+b=")
  /\ decode_uri_component hex_pair (str "a+b=%41+")
     = map plus_to_space (str "a+b=") ++ decode_uri_component hex_pair (str "%41+")
  /\ decode_uri_component hex_pair (str "a+b=%41+") = str "a b=A ".
Proof.
  assert (H : ~ In "%"%char (str "a+b=")).
  { cbv [In str list_ascii_of_string]. intuition discriminate. }
  split; [exact H|]. split; [|vm_compute; reflexivity].
  exact (proj1 (decode_uri_component_plain hex_pair (str "a+b=") (str "%41+") H)).
Defined.

(** ** Query parameters *)

Lemma none_of_not_in (cs : string) (c : ascii) (w : text) :
  none_of cs w -> In c (str cs) -> ~ In c w.
Proof.
  intros Hw Hc Hin. unfold none_of in Hw. rewrite Forall_forall in Hw.
  specialize (Hw c Hin). cbn [accepts] in Hw.
  apply negb_true_iff in Hw. unfold char_in in Hw.
  assert (existsb (Ascii.eqb c) (str cs) = true); [|congruence].
  apply existsb_exists. exists c. split; [exact Hc|apply Ascii.eqb_refl].
Qed.

Lemma getline_amp_segment (a r : text) :
  ~ In "&"%char a -> getline_amp (a ++ "&" :: r) = (a, r).
Proof.
  induction a as [|c a IH]; intros Hno; [reflexivity|].
  cbn [app getline_amp].
  replace (Ascii.eqb c "&") with false.
  - rewrite IH; [reflexivity|]. intros H. apply Hno. right. exact H.
  - symmetry. apply Ascii.eqb_neq. intros ->. apply Hno. left. reflexivity.
Qed.

Lemma getline_amp_last (a : text) :
  ~ In "&"%char a -> getline_amp a = (a, []).
Proof.
  induction a as [|c a IH]; intros Hno; [reflexivity|].
  cbn [getline_amp].
  replace (Ascii.eqb c "&") with false.
  - rewrite IH; [reflexivity|]. intros H. apply Hno. right. exact H.
  - symmetry. apply Ascii.eqb_neq. intros ->. apply Hno. left. reflexivity.
Qed.

Lemma find_eq_none (k : text) : ~ In "="%char k -> find_eq k = None.
Proof.
  induction k as [|c k IH]; intros Hno; [reflexivity|].
  cbn [find_eq].
  replace (Ascii.eqb c "=") with false.
  - rewrite IH; [reflexivity|]. intros H. apply Hno. right. exact H.
  - symmetry. apply Ascii.eqb_neq. intros ->. apply Hno. left. reflexivity.
Qed.

Lemma find_eq_first (k v : text) :
  ~ In "="%char k -> find_eq (k ++ "=" :: v) = Some (List.length k).
Proof.
  induction k as [|c k IH]; intros Hno; [reflexivity|].
  cbn [app find_eq List.length].
  replace (Ascii.eqb c "=") with false.
  - rewrite IH; [reflexivity|]. intros H. apply Hno. right. exact H.
  - symmetry. apply Ascii.eqb_neq. intros ->. apply Hno. left. reflexivity.
Qed.

Lemma param_value_assign (key k v : text) (m : list (text * text)) :
  param_value key (assign k v m)
  = if text_eqb k key then Some v else param_value key m.
Proof.
  unfold param_value. induction m as [|[k0 v0] m IH].
  - cbn [assign find fst snd]. destruct (text_eqb k key); reflexivity.
  - cbn [assign]. destruct (text_eqb k0 k) eqn:E.
    + apply text_eqb_eq in E. subst k0. cbn [find fst snd].
      destruct (text_eqb k key); reflexivity.
    + cbn [find fst snd]. destruct (text_eqb k0 key) eqn:E'.
      * apply text_eqb_eq in E'. subst k0.
        destruct (text_eqb k key) eqn:E2; [|reflexivity].
        apply text_eqb_eq in E2. subst k. rewrite text_eqb_refl in E.
        discriminate E.
      * exact IH.
Qed.

Section QueryParamsFacts.
Variable stream_hex : text -> Z.

Lemma store_pair_param (p : text * option text) (m : list (text * text)) :
  none_of "&=" (fst p) ->
  store_pair stream_hex (param_text p) m = stored stream_hex m p.
Proof.
  destruct p as [k [v|]]; intros Hk; cbn [fst] in Hk;
    assert (Hno : ~ In "="%char k)
      by (eapply none_of_not_in; [exact Hk|right; left; reflexivity]);
    unfold store_pair, param_text, stored, written_value; cbn [fst snd].
  - rewrite find_eq_first by exact Hno.
    unfold substr. cbn [skipn]. rewrite firstn_length_app.
    replace (List.length k + 1)%nat with (List.length k + 1 + 0)%nat by lia.
    replace (skipn (List.length k + 1 + 0) (k ++ "=" :: v)) with v; [reflexivity|].
    clear. induction k as [|c k IH]; [reflexivity|exact IH].
  - rewrite app_nil_r, find_eq_none by exact Hno. reflexivity.
Qed.

Lemma param_text_no_amp (p : text * option text) :
  none_of "&=" (fst p) -> none_of "&" (written_value p) ->
  ~ In "&"%char (param_text p).
Proof.
  intros Hk Hv Hin. unfold param_text in Hin. apply in_app_or in Hin as [H|H].
  - revert H. eapply none_of_not_in; [exact Hk|left; reflexivity].
  - destruct p as [k [v|]]; cbn [snd written_value] in *; [|contradiction].
    destruct H as [H|H]; [discriminate H|].
    revert H. eapply none_of_not_in; [exact Hv|left; reflexivity].
Qed.

Lemma query_loop_step (fuel : nat) (ss : text) (m : list (text * text)) :
  ss <> [] ->
  query_loop stream_hex (S fuel) ss m
  = let (pair, rest) := getline_amp ss in
    query_loop stream_hex fuel rest (store_pair stream_hex pair m).
Proof. destruct ss; [congruence|reflexivity]. Qed.

Lemma getline_amp_rest (s : text) :
  (List.length (snd (getline_amp s)) <= Nat.pred (List.length s))%nat.
Proof.
  induction s as [|c s IH]; [simpl; lia|].
  cbn [getline_amp]. destruct (Ascii.eqb c "&"); [simpl; lia|].
  destruct (getline_amp s) as [pair rest]. cbn [snd List.length] in *. lia.
Qed.

(** The loop is over after [query.length()] turns: more turns change nothing. *)
Lemma query_loop_fuel (fuel : nat) :
  forall (fuel' : nat) (ss : text) (m : list (text * text)),
    (List.length ss <= fuel)%nat -> (List.length ss <= fuel')%nat ->
    query_loop stream_hex fuel ss m = query_loop stream_hex fuel' ss m.
Proof.
  induction fuel as [|fuel IH]; intros fuel' ss m Hfuel Hfuel'.
  - destruct ss; [destruct fuel'; reflexivity|simpl in Hfuel; lia].
  - destruct ss as [|c ss]; [destruct fuel'; reflexivity|].
    destruct fuel' as [|fuel']; [simpl in Hfuel'; lia|].
    rewrite !query_loop_step by discriminate.
    pose proof (getline_amp_rest (c :: ss)) as Hrest.
    destruct (getline_amp (c :: ss)) as [pair rest].
    cbn [snd List.length Nat.pred] in *.
    apply IH; lia.
Qed.

Lemma query_loop_open (ps : list (text * option text)) :
  params_ok ps ->
  (forall p, last (map Some ps) None = Some p -> param_text p <> []) ->
  forall fuel m,
    (List.length (join_amp (map param_text ps)) <= fuel)%nat ->
    query_loop stream_hex fuel (join_amp (map param_text ps)) m
    = fold_left (stored stream_hex) ps m.
Proof.
  unfold params_ok. intros Hps Hlast.
  induction ps as [|p ps IH]; intros fuel m Hfuel.
  - destruct fuel; reflexivity.
  - inversion Hps as [|? ? [Hk Hv] Hps']; subst.
    pose proof (param_text_no_amp p Hk Hv) as Hno.
    destruct ps as [|p' ps].
    + cbn [map join_amp fold_left] in *.
      assert (Hne : param_text p <> []) by (apply Hlast; reflexivity).
      destruct fuel as [|fuel];
        [destruct (param_text p); [congruence|simpl in Hfuel; lia]|].
      rewrite query_loop_step, getline_amp_last by assumption.
      rewrite store_pair_param by exact Hk. destruct fuel; reflexivity.
    + change (join_amp (map param_text (p :: p' :: ps)))
        with (param_text p ++ "&" :: join_amp (map param_text (p' :: ps))) in *.
      rewrite length_app in Hfuel. cbn [List.length] in Hfuel.
      destruct fuel as [|fuel]; [lia|].
      cbn [fold_left].
      rewrite query_loop_step by (destruct (param_text p); discriminate).
      rewrite getline_amp_segment by exact Hno.
      rewrite store_pair_param by exact Hk.
      apply IH; [exact Hps'| |lia].
      intros q Hq. apply Hlast. exact Hq.
Qed.

Lemma query_loop_closed (ps : list (text * option text)) :
  params_ok ps ->
  forall fuel m,
    (List.length (closed_text (map param_text ps)) <= fuel)%nat ->
    query_loop stream_hex fuel (closed_text (map param_text ps)) m
    = fold_left (stored stream_hex) ps m.
Proof.
  unfold params_ok. intros Hps.
  induction ps as [|p ps IH]; intros fuel m Hfuel.
  - destruct fuel; reflexivity.
  - inversion Hps as [|? ? [Hk Hv] Hps']; subst.
    pose proof (param_text_no_amp p Hk Hv) as Hno.
    cbn [map closed_text fold_left] in *.
    rewrite length_app in Hfuel. cbn [List.length] in Hfuel.
    destruct fuel as [|fuel]; [lia|].
    rewrite query_loop_step by (destruct (param_text p); discriminate).
    rewrite getline_amp_segment by exact Hno.
    rewrite store_pair_param by exact Hk.
    apply IH; [exact Hps'|lia].
Qed.

Lemma query_loop_written (q : text) (ps : list (text * option text)) :
  written_as q ps ->
  forall m,
    query_loop stream_hex (List.length q) q m = fold_left (stored stream_hex) ps m.
Proof.
  intros [Hps [->|[-> Hlast]]] m.
  - apply query_loop_closed; [exact Hps|lia].
  - apply query_loop_open; [exact Hps|exact Hlast|lia].
Qed.

Lemma param_value_stored_after (key : text) (ps : list (text * option text)) :
  forall m,
    Forall (fun p => decode_uri_component stream_hex (fst p) <> key) ps ->
    param_value key (fold_left (stored stream_hex) ps m) = param_value key m.
Proof.
  induction ps as [|p ps IH]; intros m Hps; [reflexivity|].
  inversion Hps as [|? ? Hp Hps']; subst. cbn [fold_left].
  rewrite IH by exact Hps'. unfold stored. rewrite param_value_assign.
  destruct (text_eqb (decode_uri_component stream_hex (fst p)) key) eqn:E; [|reflexivity].
  apply text_eqb_eq in E. contradiction.
Qed.

End QueryParamsFacts.

(** Every text without [&] is a parameter as written. *)
Lemma segment_written (a : text) :
  ~ In "&"%char a ->
  exists p, param_text p = a
    /\ none_of "&=" (fst p) /\ none_of "&" (written_value p).
Proof.
  induction a as [|c a IH]; intros Hno.
  - exists ([], None). repeat split; constructor.
  - assert (Hc : Ascii.eqb c "&" = false).
    { apply Ascii.eqb_neq. intros ->. apply Hno. left. reflexivity. }
    assert (Ha : ~ In "&"%char a) by (intros H; apply Hno; right; exact H).
    destruct (Ascii.eqb c "=") eqn:Ec.
    + apply Ascii.eqb_eq in Ec. subst c.
      exists ([], Some a). split; [reflexivity|]. split; [constructor|].
      cbn [written_value snd]. unfold none_of. apply Forall_forall.
      intros x Hx. cbn [accepts char_in str list_ascii_of_string existsb].
      destruct (Ascii.eqb_spec x "&") as [->|_]; [contradiction|reflexivity].
    + destruct (IH Ha) as ([k v] & Ep & Hk & Hv).
      exists (c :: k, v). split; [unfold param_text in *; cbn [fst snd] in *;
                                  rewrite <- Ep; reflexivity|].
      split; [|exact Hv]. cbn [fst] in *. constructor; [|exact Hk].
      cbn [accepts char_in str list_ascii_of_string existsb].
      rewrite Hc, Ec. reflexivity.
Qed.

Lemma split_at_amp (q : text) :
  ~ In "&"%char q
  \/ exists a r, q = a ++ "&" :: r /\ ~ In "&"%char a.
Proof.
  induction q as [|c q IH]; [left; intros []|].
  destruct (Ascii.eqb_spec c "&") as [->|Hc].
  - right. exists [], q. split; [reflexivity|intros []].
  - destruct IH as [Hno|(a & r & -> & Hno)].
    + left. intros [H|H]; [congruence|contradiction].
    + right. exists (c :: a), r. split; [reflexivity|].
      intros [H|H]; [congruence|contradiction].
Qed.

(** Every query holds some parameters, one per segment. *)
Lemma every_query_written (q : text) : exists ps, written_as q ps.
Proof.
  remember (List.length q) as n eqn:En.
  assert (Hn : (List.length q <= n)%nat) by lia. clear En.
  revert q Hn. induction n as [|n IH]; intros q Hn.
  - destruct q; [|simpl in Hn; lia].
    exists []. split; [constructor|left; reflexivity].
  - destruct (split_at_amp q) as [Hno|(a & r & -> & Hno)].
    + destruct q as [|c q].
      * exists []. split; [constructor|left; reflexivity].
      * destruct (segment_written (c :: q) Hno) as (p & Ep & Hk & Hv).
        exists [p]. split; [constructor; [split; assumption|constructor]|].
        right. cbn [map join_amp last]. split; [symmetry; exact Ep|].
        intros p' Hp'. injection Hp' as <-. rewrite Ep. discriminate.
    + destruct (segment_written a Hno) as (p & Ep & Hk & Hv).
      rewrite length_app in Hn. cbn [List.length] in Hn.
      destruct (IH r ltac:(lia)) as (ps & Hps & Hr).
      exists (p :: ps). split; [constructor; [split; assumption|exact Hps]|].
      destruct Hr as [->|[-> Hlast]].
      * left. cbn [map closed_text]. rewrite Ep. reflexivity.
      * destruct ps as [|p' ps].
        -- left. cbn [map closed_text join_amp]. rewrite Ep. reflexivity.
        -- right. split.
           ++ change (join_amp (map param_text (p :: p' :: ps)))
                with (param_text p ++ "&"
                        :: join_amp (map param_text (p' :: ps))).
              rewrite Ep. reflexivity.
           ++ intros x Hx. apply Hlast. exact Hx.
Qed.

(** X14.  [parse_query_params] on an object whose cache is not yet filled
    sets the flag and stores, for a key written in the query, the value of
    the last segment with this key after decoding: the text after the first
    [=] of the segment, decoded, or the empty text when the segment has no
    [=].  The query is any text: its segments are the texts that end at a
    [&], and a last one that is not empty and has no [&] after it. *)
Theorem query_params_last_wins (stream_hex : text -> Z) (i : URLImpl)
    (before after : list (text * option text)) (p : text * option text)
    (Hfresh : query_params_parsed i = false)
    (Hq : written_as (query i) (before ++ p :: after))
    (Hafter : Forall (fun p' => decode_uri_component stream_hex (fst p')
                                <> decode_uri_component stream_hex (fst p)) after) :
  let i' := parse_query_params stream_hex i in
  query_params_parsed i' = true
  /\ param_value (decode_uri_component stream_hex (fst p)) (query_params i')
     = Some (decode_uri_component stream_hex (written_value p)).
Proof.
  intros i'. subst i'. unfold parse_query_params. rewrite Hfresh.
  cbn [query_params query_params_parsed]. split; [reflexivity|].
  rewrite (query_loop_written stream_hex _ _ Hq).
  rewrite fold_left_app. cbn [fold_left].
  rewrite param_value_stored_after by exact Hafter.
  unfold stored at 1. rewrite param_value_assign, text_eqb_refl. reflexivity.
Qed.

Lemma query_params_last_wins_witness :
  let i := impl_ (url_of "http" "h" 80 "/" "a=1&b&=5&a=x+y=z&" "") in
  let before :=
    [(str "a", Some (str "1")); (str "b", None); (str "", Some (str "5"))] in
  let p := (str "a", Some (str "x+y=z")) in
  query_params_parsed i = false
  /\ written_as (query i) (before ++ p :: [])
  /\ Forall (fun p' : text * option text => decode_uri_component hex_pair (fst p')
                       <> decode_uri_component hex_pair (fst p)) []
  /\ param_value (str "a") (query_params (parse_query_params hex_pair i))
     = Some (str "x y=z").
Proof.
  intros i before p.
  assert (H1 : query_params_parsed i = false) by reflexivity.
  assert (H2 : written_as (query i) (before ++ p :: [])).
  { split; [repeat constructor|left; reflexivity]. }
  assert (H3 : Forall (fun p' : text * option text => decode_uri_component hex_pair (fst p')
                                 <> decode_uri_component hex_pair (fst p)) [])
    by constructor.
  repeat (split; [assumption|]).
  exact (proj2 (query_params_last_wins hex_pair i before [] p H1 H2 H3)).
Defined.

(** X15.  After [parse_query_params] on an object with an empty, unfilled
    cache a key is in the cache exactly when a segment of the query has it
    as its decoded key.  The segments are the texts that end at a [&], and a
    last one that is not empty and has no [&] after it: the text after the
    last [&] is a segment only when it is not empty. *)
Theorem query_params_keys (stream_hex : text -> Z) (i : URLImpl)
    (ps : list (text * option text)) (key : text)
    (Hfresh : query_params_parsed i = false)
    (Hempty : query_params i = [])
    (Hq : written_as (query i) ps) :
  param_value key (query_params (parse_query_params stream_hex i)) <> None
  <-> exists p, In p ps /\ decode_uri_component stream_hex (fst p) = key.
Proof.
  unfold parse_query_params. rewrite Hfresh, Hempty. cbn [query_params].
  rewrite (query_loop_written stream_hex _ _ Hq).
  clear.
  assert (Hgen : forall m,
    param_value key (fold_left (stored stream_hex) ps m) <> None
    <-> param_value key m <> None
        \/ exists p, In p ps /\ decode_uri_component stream_hex (fst p) = key).
  { induction ps as [|p ps IH]; intros m; cbn [fold_left].
    - split; [auto|]. intros [H|(p & [] & _)]. exact H.
    - rewrite IH. unfold stored. rewrite param_value_assign.
      destruct (text_eqb (decode_uri_component stream_hex (fst p)) key) eqn:E.
      + apply text_eqb_eq in E. split; intros _.
        * right. exists p. split; [left; reflexivity|exact E].
        * left. discriminate.
      + split.
        * intros [H|(q & Hin & Hk)]; [left; exact H|].
          right. exists q. split; [right; exact Hin|exact Hk].
        * intros [H|(q & [->|Hin] & Hk)]; [left; exact H| |].
          -- rewrite <- Hk, text_eqb_refl in E. discriminate E.
          -- right. exists q. split; assumption. }
  rewrite Hgen. unfold param_value. cbn [find]. split.
  - intros [H|H]; [congruence|exact H].
  - intros H. right. exact H.
Qed.

Lemma query_params_keys_witness :
  let i := impl_ (url_of "http" "h" 80 "/" "a=1&b&" "") in
  let ps := [(str "a", Some (str "1")); (str "b", None)] in
  query_params_parsed i = false /\ query_params i = []
  /\ written_as (query i) ps
  /\ (param_value (str "") (query_params (parse_query_params hex_pair i)) <> None
      <-> exists p, In p ps /\ decode_uri_component hex_pair (fst p) = str "")
  /\ param_value (str "") (query_params (parse_query_params hex_pair i)) = None
  /\ param_value (str "b") (query_params (parse_query_params hex_pair i))
     = Some (str "").
Proof.
  intros i ps.
  assert (H1 : query_params_parsed i = false) by reflexivity.
  assert (H2 : query_params i = []) by reflexivity.
  assert (H3 : written_as (query i) ps).
  { split; [repeat constructor|left; reflexivity]. }
  repeat (split; [assumption|]).
  split; [|split; vm_compute; reflexivity].
  exact (query_params_keys hex_pair i ps (str "") H1 H2 H3).
Defined.

(** ** Secure schemes *)

(** X16.  [is_secure] and the default-port table agree: a scheme is secure
    exactly when its default port is 443. *)
Theorem is_secure_default_port (u : URL) :
  is_secure u = true <-> find_port (scheme (impl_ u)) = Some 443.
Proof.
  unfold is_secure, find_port, default_ports.
  generalize (scheme (impl_ u)). intros sch. cbn [find fst snd].
  destruct (text_eqb (str "http") sch) eqn:E1;
    [apply text_eqb_eq in E1; subst sch; vm_compute; split; discriminate|].
  destruct (text_eqb (str "https") sch) eqn:E2;
    [apply text_eqb_eq in E2; subst sch; vm_compute; split; reflexivity|].
  destruct (text_eqb (str "ws") sch) eqn:E3;
    [apply text_eqb_eq in E3; subst sch; vm_compute; split; discriminate|].
  destruct (text_eqb (str "wss") sch) eqn:E4;
    [apply text_eqb_eq in E4; subst sch; vm_compute; split; reflexivity|].
  assert (H1 : text_eqb sch (str "https") = false).
  { destruct (text_eqb sch (str "https")) eqn:E; [|reflexivity].
    apply text_eqb_eq in E. subst sch. discriminate E2. }
  assert (H2 : text_eqb sch (str "wss") = false).
  { destruct (text_eqb sch (str "wss")) eqn:E; [|reflexivity].
    apply text_eqb_eq in E. subst sch. discriminate E4. }
  rewrite H1, H2.
  destruct (text_eqb (str "ftp") sch) eqn:E5; split; discriminate.
Qed.
